(** * Wall-drawing core of the CAD viewport

    A shallow embedding of [src/components/DrawingPlane.tsx] and
    [src/components/CadViewport.tsx]: grid and vertex snapping, the proper
    segment/segment intersection test, the angle check at a shared vertex, the
    click and pointer-move handlers of the drawing plane, and the undo/redo
    history of the viewport.

    Numbers.  The program computes on JavaScript numbers.  The snapping, the
    intersection test and the handlers only use field arithmetic, comparisons
    and [Math.round]; they are embedded over the exact rationals [Q], so every
    definition on the click path evaluates.  [Math.hypot], [Math.acos] and
    [Math.PI] have no rational counterpart: the angle at a vertex is computed
    in the real numbers [R] from the rational coordinates.  Rounding error of
    binary floating point is outside this model.

    Effects.  React state is a record that every handler maps to the next
    record; [crypto.randomUUID ()] is an input of the click event. *)

From Stdlib Require Import List Bool String ZArith QArith Qabs Qround.
From Stdlib Require Import Lqa.
From Stdlib Require Import Reals Qreals Lra Lia.
Import ListNotations.

Open Scope string_scope.
Open Scope list_scope.
Open Scope Q_scope.

(** ** Numbers *)

(** [x < y] on numbers, as a boolean. *)
Definition Qltb (x y : Q) : bool := negb (Qle_bool y x).

(** [Math.round]: the nearest integer, halves rounded up. *)
Definition Math_round (x : Q) : Q := inject_Z (Qfloor (x + (1 # 2))).

(** [Math.hypot] on two arguments. *)
Definition Math_hypot (x z : Q) : R := sqrt (Q2R (x * x + z * z)).

(** [x < y] on an angle, as a boolean. *)
Definition Rltb (x y : R) : bool := if Rlt_dec x y then true else false.

(** ** Data model *)

(** [type Point3 = [number, number, number]]; [px], [py], [pz] read
    [p[0]], [p[1]], [p[2]]. *)
Record Point3 : Type := P3 { px : Q; py : Q; pz : Q }.

(** [type Segment = { id; start; end }]. *)
Record Segment : Type := mkSegment { id : string; start : Point3; end_ : Point3 }.

Definition SNAP_RADIUS : Q := 1 # 2.
Definition GRID_SIZE : Q := 1 # 4.
Definition MIN_ANGLE_DEG : R := 30%R.
Definition MIN_ANGLE_RAD : R := ((MIN_ANGLE_DEG * PI) / 180)%R.

(** The literal [1e-6] of the intersection test. *)
Definition EPS : Q := 1 # 1000000.

(** ** Snapping *)

Definition snapToGrid (p : Point3) : Point3 :=
  P3 (Math_round (px p / GRID_SIZE) * GRID_SIZE)
     (py p)
     (Math_round (pz p / GRID_SIZE) * GRID_SIZE).

(** Squared planar distance from [snapped] to the snap point [sp]. *)
Definition distSq (snapped sp : Point3) : Q :=
  let dx := px sp - px snapped in
  let dz := pz sp - pz snapped in
  dx * dx + dz * dz.

(** One iteration of the [for (const sp of snapPoints)] loop of [applySnap],
    on the pair [(closest, minDistSq)]. *)
Definition snapStep (snapped : Point3) (acc : option Point3 * Q) (sp : Point3)
  : option Point3 * Q :=
  let '(closest, minDistSq) := acc in
  if Qle_bool (distSq snapped sp) minDistSq
  then (Some sp, distSq snapped sp)
  else (closest, minDistSq).

Definition snapLoop (snapped : Point3) (snapPoints : list Point3)
  : option Point3 * Q :=
  fold_left (snapStep snapped) snapPoints (None, SNAP_RADIUS ^ 2).

Definition applySnap (snapGridEnabled : bool) (snapPoints : list Point3)
  (p : option Point3) : option Point3 :=
  match p with
  | None => None
  | Some p =>
      let snapped := if snapGridEnabled then snapToGrid p else p in
      match snapPoints with
      | [] => Some snapped
      | _ :: _ =>
          match fst (snapLoop snapped snapPoints) with
          | Some closest => Some closest
          | None => Some snapped
          end
      end
  end.

(** [segments.flatMap(s => [s.start, s.end])]. *)
Definition snapPointsOf (segments : list Segment) : list Point3 :=
  flat_map (fun s => [start s; end_ s]) segments.

(** ** Angle at a vertex *)

Definition angleAtVertexDot (a b c : Point3) : R :=
  let ux := px a - px b in
  let uz := pz a - pz b in
  let vx := px c - px b in
  let vz := pz c - pz b in
  let dot := ux * vx + uz * vz in
  let lenU := Math_hypot ux uz in
  let lenV := Math_hypot vx vz in
  if Req_dec_T lenU 0 then 0%R
  else if Req_dec_T lenV 0 then 0%R
  else
    let cos := (Q2R dot / (lenU * lenV))%R in
    let cos := Rmin 1 (Rmax (-1) cos) in
    acos cos.

(** ** Segment intersection *)

(** [type IntersectionWithT = { hit: boolean, point?: Point3, t?: number }]. *)
Record IntersectionWithT : Type :=
  mkIntersection { hit : bool; point : option Point3; t : option Q }.

Definition noHit : IntersectionWithT := mkIntersection false None None.

Definition segmentsIntersectionPoint2DWithT (p1 p2 p3 p4 : Point3)
  : IntersectionWithT :=
  let x1 := px p1 in let z1 := pz p1 in
  let x2 := px p2 in let z2 := pz p2 in
  let x3 := px p3 in let z3 := pz p3 in
  let x4 := px p4 in let z4 := pz p4 in
  let denom := (x1 - x2) * (z3 - z4) - (z1 - z2) * (x3 - x4) in
  if Qltb (Qabs denom) EPS then noHit
  else
    let t := ((x1 - x3) * (z3 - z4) - (z1 - z3) * (x3 - x4)) / denom in
    let u := ((x1 - x3) * (z1 - z2) - (z1 - z3) * (x1 - x2)) / denom in
    if Qltb EPS t && Qltb t (1 - EPS) && Qltb EPS u && Qltb u (1 - EPS)
    then
      let ix := x1 + t * (x2 - x1) in
      let iz := z1 + t * (z2 - z1) in
      mkIntersection true (Some (P3 ix 0 iz)) (Some t)
    else noHit.

Definition wouldIntersectExistingWalls (start' end' : Point3)
  (segments : list Segment) : bool :=
  existsb
    (fun seg => hit (segmentsIntersectionPoint2DWithT start' end' (start seg) (end_ seg)))
    segments.

(** ** State *)

(** The [useState] cells of [CadViewport]. *)
Record Viewport : Type := mkViewport {
  isDrawingMode : bool;
  snapGridEnabled : bool;
  segments : list Segment;
  history : list (list Segment);
  redoStack : list (list Segment);
  selectedId : option string
}.

(** The [useState] cells of [DrawingPlane]. *)
Record Plane : Type := mkPlane {
  isDrawing : bool;
  startPoint : option Point3;
  currentPoint : option Point3;
  previewAngle : option R;
  previewBlocked : bool;
  canPlaceWall : bool
}.

Record App : Type := mkApp { viewport : Viewport; plane : Plane }.

Definition initViewport : Viewport := mkViewport false true [] [] [] None.
Definition initPlane : Plane := mkPlane false None None None false true.
Definition initApp : App := mkApp initViewport initPlane.

Definition setSelectedId (sel : option string) (v : Viewport) : Viewport :=
  mkViewport (isDrawingMode v) (snapGridEnabled v) (segments v) (history v)
    (redoStack v) sel.

Definition setIsDrawingMode (b : bool) (v : Viewport) : Viewport :=
  mkViewport b (snapGridEnabled v) (segments v) (history v) (redoStack v)
    (selectedId v).

(** ** History ([CadViewport]) *)

Definition pushHistory (next : list Segment) (v : Viewport) : Viewport :=
  mkViewport (isDrawingMode v) (snapGridEnabled v) next
    (history v ++ [segments v]) [] (selectedId v).

Definition handleUndo (v : Viewport) : Viewport :=
  match history v with
  | [] => v
  | _ :: _ =>
      let last := List.last (history v) [] in
      mkViewport (isDrawingMode v) (snapGridEnabled v) last
        (removelast (history v)) (segments v :: redoStack v) None
  end.

Definition handleRedo (v : Viewport) : Viewport :=
  match redoStack v with
  | [] => v
  | next :: rest =>
      mkViewport (isDrawingMode v) (snapGridEnabled v) next
        (history v ++ [segments v]) rest None
  end.

(** [!selectedId]: [null] and the empty string are falsy. *)
Definition falsyId (sel : option string) : bool :=
  match sel with
  | None => true
  | Some i => String.eqb i EmptyString
  end.

Definition handleDeleteSelected (v : Viewport) : Viewport :=
  match selectedId v with
  | None => v
  | Some i =>
      if falsyId (Some i) then v
      else
        setSelectedId None
          (pushHistory
             (filter (fun s => negb (String.eqb (id s) i)) (segments v)) v)
  end.


Definition handleEnterDraw (v : Viewport) : Viewport :=
  setSelectedId None (setIsDrawingMode true v).

Definition toggleSnapGrid (v : Viewport) : Viewport :=
  mkViewport (isDrawingMode v) (negb (snapGridEnabled v)) (segments v)
    (history v) (redoStack v) (selectedId v).

(** [onClick] of the [WallSegment] that renders [segment]. *)
Definition wallOnClick (segment : Segment) (v : Viewport) : Viewport :=
  if isDrawingMode v then v
  else
    let selected :=
      match selectedId v with
      | Some i => String.eqb i (id segment)
      | None => false
      end in
    setSelectedId (if selected then None else Some (id segment)) v.

(** ** Drawing plane *)

Definition resetDrawing : Plane := initPlane.

(** The [useEffect] on [isDrawingMode]: it runs after a render in which
    [isDrawingMode] changed, and resets the plane when the mode is off. *)
Definition stopDrawing (a : App) : App :=
  if isDrawingMode (viewport a)
  then mkApp (setIsDrawingMode false (viewport a)) resetDrawing
  else a.

(** One iteration of the [for (const seg of segments)] loop of [handleClick],
    on the pair [(bestHit, bestSeg)]. *)
Definition hitStep (startPoint' p : Point3)
  (acc : option IntersectionWithT * option Segment) (seg : Segment)
  : option IntersectionWithT * option Segment :=
  let res := segmentsIntersectionPoint2DWithT startPoint' p (start seg) (end_ seg) in
  match hit res, point res, t res with
  | true, Some _, Some rt =>
      match fst acc with
      | None => (Some res, Some seg)
      | Some bestHit =>
          match t bestHit with
          | Some bt => if Qltb rt bt then (Some res, Some seg) else acc
          | None => acc
          end
      end
  | _, _, _ => acc
  end.

Definition hitLoop (startPoint' p : Point3) (segments' : list Segment)
  : option IntersectionWithT * option Segment :=
  fold_left (hitStep startPoint' p) segments' (None, None).

(** The wall set built on a T-junction: [bestSeg] is replaced by [segA] and
    [segB], and [snappedNewSeg] is pushed at the end. *)
Definition splitAndInsert (segments' : list Segment) (bestSeg : Segment)
  (intersectionPoint startPoint' : Point3) (u1 u2 u3 : string) : list Segment :=
  let snappedNewSeg := mkSegment u1 startPoint' intersectionPoint in
  let segA := mkSegment u2 (start bestSeg) intersectionPoint in
  let segB := mkSegment u3 intersectionPoint (end_ bestSeg) in
  flat_map (fun s => if String.eqb (id s) (id bestSeg) then [segA; segB] else [s])
    segments'
  ++ [snappedNewSeg].

(** [handleClick]; [raw] is the result of [getPlaneIntersection], and
    [u1], [u2], [u3] are the results of the calls of [crypto.randomUUID ()],
    in the order of the calls.  A best hit without a point cannot occur;
    [bestHit.point!] would throw there and leave the state as it is. *)
Definition handleClick (raw : option Point3) (u1 u2 u3 : string) (a : App) : App :=
  let v := viewport a in
  let d := plane a in
  if negb (isDrawingMode v) then a
  else
    match applySnap (snapGridEnabled v) (snapPointsOf (segments v)) raw with
    | None => a
    | Some p =>
        if negb (isDrawing d)
        then
          mkApp (setSelectedId None v) (mkPlane true (Some p) (Some p) None false true)
        else
          match startPoint d with
          | None => a
          | Some startPoint' =>
              match hitLoop startPoint' p (segments v) with
              | (Some bestHit, Some bestSeg) =>
                  match point bestHit with
                  | Some hp =>
                      let intersectionPoint := snapToGrid hp in
                      let next :=
                        splitAndInsert (segments v) bestSeg intersectionPoint
                          startPoint' u1 u2 u3 in
                      mkApp (pushHistory next v) resetDrawing
                  | None => a
                  end
              | _ =>
                  if negb (canPlaceWall d) then a
                  else
                    let newSeg := mkSegment u1 startPoint' p in
                    let next := segments v ++ [newSeg] in
                    mkApp (pushHistory next v) resetDrawing
              end
          end
    end.

(** [seg.start] or [seg.end] coincides with [b] in the plane. *)
Definition startsAt (seg : Segment) (b : Point3) : bool :=
  Qeq_bool (px (start seg)) (px b) && Qeq_bool (pz (start seg)) (pz b).

Definition endsAt (seg : Segment) (b : Point3) : bool :=
  Qeq_bool (px (end_ seg)) (px b) && Qeq_bool (pz (end_ seg)) (pz b).

(** [[...segments].reverse().find(seg => ...)]. *)
Definition lastTouching (segments' : list Segment) (b : Point3) : option Segment :=
  find (fun seg => startsAt seg b || endsAt seg b) (rev segments').

(** The point [a] of [handlePointerMove]: the far endpoint of the touching wall. *)
Definition farEndpoint (seg : Segment) (b : Point3) : Point3 :=
  if startsAt seg b then end_ seg else start seg.

(** The locals [tooSharp] and the angle given to [setPreviewAngle], for the
    anchor [b] and the snapped pointer [p]. *)
Definition angleCheck (segments' : list Segment) (b p : Point3) : bool * option R :=
  match lastTouching segments' b with
  | Some seg =>
      let angle := angleAtVertexDot (farEndpoint seg b) b p in
      (Rltb angle MIN_ANGLE_RAD, Some angle)
  | None => (false, None)
  end.

Definition handlePointerMove (raw : option Point3) (a : App) : App :=
  let v := viewport a in
  let d := plane a in
  if negb (isDrawingMode v) || negb (isDrawing d) then a
  else
    match applySnap (snapGridEnabled v) (snapPointsOf (segments v)) raw with
    | None => a
    | Some p =>
        match startPoint d with
        | None =>
            mkApp v (mkPlane (isDrawing d) (startPoint d) (Some p) (previewAngle d)
                       (previewBlocked d) (canPlaceWall d))
        | Some b =>
            let tooSharp := fst (angleCheck (segments v) b p) in
            let intersects := wouldIntersectExistingWalls b p (segments v) in
            let blocked := tooSharp || intersects in
            mkApp v (mkPlane (isDrawing d) (startPoint d) (Some p)
                       (snd (angleCheck (segments v) b p)) blocked (negb blocked))
        end
    end.

(** ** Events *)

Inductive Event : Type :=
| EnterDraw
| StopDraw
| ToggleSnapGrid
| Undo
| Redo
| DeleteSelected
| WallClick (i : nat)
| PlaneClick (raw : option Point3) (u1 u2 u3 : string)
| PlaneMove (raw : option Point3).

Definition onViewport (f : Viewport -> Viewport) (a : App) : App :=
  mkApp (f (viewport a)) (plane a).

Definition step (a : App) (e : Event) : App :=
  match e with
  | EnterDraw => onViewport handleEnterDraw a
  | StopDraw => stopDrawing a
  | ToggleSnapGrid => onViewport toggleSnapGrid a
  | Undo => onViewport handleUndo a
  | Redo => onViewport handleRedo a
  | DeleteSelected => onViewport handleDeleteSelected a
  | WallClick i =>
      match nth_error (segments (viewport a)) i with
      | Some segment => onViewport (wallOnClick segment) a
      | None => a
      end
  | PlaneClick raw u1 u2 u3 => handleClick raw u1 u2 u3 a
  | PlaneMove raw => handlePointerMove raw a
  end.

Definition run (events : list Event) (a : App) : App := fold_left step events a.

Definition reachable (a : App) : Prop := exists events, run events initApp = a.

(** ** Properties stated on the model *)

(** Squared planar length of a segment. *)
Definition lengthSq (s : Segment) : Q := distSq (start s) (end_ s).

(** [s] is shorter than or as long as [eps]. *)
Definition degenerate (eps : Q) (s : Segment) : Prop := lengthSq s <= eps * eps.

(** The selection is absent or names a wall of the current wall set. *)
Definition selectionValid (v : Viewport) : Prop :=
  match selectedId v with
  | None => True
  | Some i => exists s, In s (segments v) /\ id s = i
  end.

(** The two block flags of the plane agree. *)
Definition flagsCoherent (d : Plane) : Prop :=
  canPlaceWall d = negb (previewBlocked d).

(** Every wall of every reachable wall set is longer than [eps]. *)
Definition wallsNonDegenerate (eps : Q) : Prop :=
  forall events s,
    In s (segments (viewport (run events initApp))) -> ~ degenerate eps s.

(** A sequence of commits: [pushHistory] of each wall set in turn. *)
Definition commitAll (commits : list (list Segment)) (v : Viewport) : Viewport :=
  fold_left (fun v' next => pushHistory next v') commits v.

(** [c], at list position [length before], is the first candidate of
    [before ++ c :: after] at the least squared distance from [snapped], and
    some later candidate is at the same distance. *)
Definition firstOfTied (snapped c : Point3) (before after : list Point3) : Prop :=
  (forall q, In q before -> distSq snapped c < distSq snapped q) /\
  (forall q, In q after -> distSq snapped c <= distSq snapped q) /\
  (exists q, In q after /\ distSq snapped q == distSq snapped c).

(** [c] is the last candidate of [before ++ c :: after] at the least squared
    distance from [snapped]. *)
Definition lastOfLeast (snapped c : Point3) (before after : list Point3) : Prop :=
  (forall q, In q before -> distSq snapped c <= distSq snapped q) /\
  (forall q, In q after -> distSq snapped c < distSq snapped q).

(** The plane with the two block flags replaced. *)
Definition withBlockFlags (previewBlocked' canPlaceWall' : bool) (d : Plane) : Plane :=
  mkPlane (isDrawing d) (startPoint d) (currentPoint d) (previewAngle d)
    previewBlocked' canPlaceWall'.


(** The invariant of the event loop: in draw mode nothing is selected, the
    selection names a wall of the wall set, and the block flags agree. *)
Definition appInvariant (a : App) : Prop :=
  (isDrawingMode (viewport a) = true -> selectedId (viewport a) = None) /\
  selectionValid (viewport a) /\
  flagsCoherent (plane a).

(** The accumulator of the hit loop holds a hit on a wall of [walls]. *)
Definition hitAcc (startPoint' p : Point3) (walls : list Segment)
  (acc : option IntersectionWithT * option Segment) : Prop :=
  exists seg,
    In seg walls /\
    hit (segmentsIntersectionPoint2DWithT startPoint' p (start seg) (end_ seg)) = true /\
    acc = (Some (segmentsIntersectionPoint2DWithT startPoint' p (start seg) (end_ seg)),
           Some seg).

(** ** Sample inputs *)

(** A point of the drawing plane. *)
Definition pt (x z : Q) : Point3 := P3 x 0 z.

(** Draw mode, then two clicks at the origin. *)
Definition doubleClick : list Event :=
  [EnterDraw;
   PlaneClick (Some (pt 0 0)) "a1" "a2" "a3";
   PlaneClick (Some (pt 0 0)) "b1" "b2" "b3"].

(** Draw mode, then the wall from (0,0) to (4,0). *)
Definition oneWall : list Event :=
  [EnterDraw;
   PlaneClick (Some (pt 0 0)) "a1" "a2" "a3";
   PlaneClick (Some (pt 4 0)) "b1" "b2" "b3"].

(** On [oneWall], a wall from (0,-1) to (1/4,3): it crosses the first wall
    at x = 1/16, which the grid takes back to the corner (0,0). *)
Definition nearCorner : list Event :=
  oneWall ++
  [PlaneClick (Some (pt 0 (-1))) "c1" "c2" "c3";
   PlaneClick (Some (pt (1 # 4) 3)) "d1" "d2" "d3"].

(** Draw mode and one click at the origin: Drawing, anchored at (0,0). *)
Definition originAnchored : App :=
  run [EnterDraw; PlaneClick (Some (pt 0 0)) "a1" "a2" "a3"] initApp.

(** On [oneWall], anchor at (2,-2), move across the wall to (2,2): the
    preview is blocked by the crossing. *)
Definition blockedByCrossing : App :=
  run (oneWall ++
       [PlaneClick (Some (pt 2 (-2))) "c1" "c2" "c3"; PlaneMove (Some (pt 2 2))])
    initApp.

(** One wall, from (0,0) to (4,0), with id ["w"]. *)
Definition wallW : Segment := mkSegment "w" (pt 0 0) (pt 4 0).

(** A viewport holding [wallW], with empty undo stack and one redo entry. *)
Definition oneWallViewport : Viewport :=
  mkViewport false true [wallW] [] [[]] None.

(** Three walls with distinct ids; [wallW] is the second. *)
Definition threeWalls : list Segment :=
  [mkSegment "v" (pt 0 0) (pt 0 4); wallW; mkSegment "x" (pt 4 0) (pt 4 4)].

(** On [oneWall], a first click on the end (4,0) of the wall: Drawing,
    anchored at a vertex of the wall. *)
Definition cornerAnchored : App :=
  run (oneWall ++ [PlaneClick (Some (pt 4 0)) "c1" "c2" "c3"]) initApp.

(** The wall drawn by [oneWall], as the state holds it. *)
Definition drawnWall : Segment :=
  mkSegment "b1" (snapToGrid (pt 0 0)) (snapToGrid (pt 4 0)).

(** From [cornerAnchored], the pointer moves to (2,2): the angle at (4,0)
    between the wall and the preview, the flag it sets, and the plane after
    the move. *)
Definition sampleAngle : R :=
  angleAtVertexDot (farEndpoint drawnWall (snapToGrid (pt 4 0)))
    (snapToGrid (pt 4 0)) (snapToGrid (pt 2 2)).

Definition sampleTooSharp : bool :=
  fst (angleCheck (segments (viewport cornerAnchored)) (snapToGrid (pt 4 0))
         (snapToGrid (pt 2 2))).

Definition sampleAfterMove : Plane :=
  plane (handlePointerMove (Some (pt 2 2)) cornerAnchored).

(** The viewport after [oneWall]: draw mode, the wall [drawnWall]. *)
Definition oneWallDrawn : Viewport := viewport (run oneWall initApp).

(** From [oneWallDrawn], a first click on the end (4,0) of the wall. *)
Definition foldBackAnchored : App :=
  handleClick (Some (pt 4 0)) "c1" "c2" "c3" (mkApp oneWallDrawn resetDrawing).

(** ** Further definitions *)

(** [p] is a point of the grid: snapping leaves it where it is. *)
Definition onGrid (p : Point3) : Prop := snapToGrid p = p.

(** The parameter along the candidate wall from [startPoint'] to [p] at which
    it properly crosses [seg], when it does. *)
Definition crossingAt (startPoint' p : Point3) (seg : Segment) : option Q :=
  let res := segmentsIntersectionPoint2DWithT startPoint' p (start seg) (end_ seg) in
  if hit res then t res else None.

(** The predicate of [lastTouching]: an end of [seg] is at [b]. *)
Definition touches (seg : Segment) (b : Point3) : bool :=
  startsAt seg b || endsAt seg b.

(** Two walls across the x axis, at x = 1 and at x = 3. *)
Definition twoFences : list Segment :=
  [mkSegment "f1" (pt 1 (-1)) (pt 1 1); mkSegment "f3" (pt 3 (-1)) (pt 3 1)].

(** The wall sets of the viewport in time order: past, present, future. *)
Definition timeline (v : Viewport) : list (list Segment) :=
  history v ++ segments v :: redoStack v.

(** [undo ()] and [redo ()], [n] times in a row. *)
Definition undoTimes (n : nat) (v : Viewport) : Viewport := Nat.iter n handleUndo v.
Definition redoTimes (n : nat) (v : Viewport) : Viewport := Nat.iter n handleRedo v.

(** Three wall sets, and a viewport that has committed them in turn. *)
Definition wallsA : list Segment := [mkSegment "a" (pt 0 0) (pt 1 0)].
Definition wallsB : list Segment := wallsA ++ [mkSegment "b" (pt 1 0) (pt 1 1)].
Definition wallsC : list Segment := wallsB ++ [mkSegment "c" (pt 1 1) (pt 0 1)].
Definition threeCommits : Viewport := commitAll [wallsA; wallsB; wallsC] initViewport.

(** The session is well formed: idle with every field cleared, or drawing,
    in draw mode, with an anchor and a current point. *)
Definition sessionInvariant (a : App) : Prop :=
  if isDrawing (plane a)
  then isDrawingMode (viewport a) = true /\
       exists b c, startPoint (plane a) = Some b /\ currentPoint (plane a) = Some c
  else plane a = resetDrawing.

(** Every wall set the viewport holds: the present, the past, the future. *)
Definition wallSets (v : Viewport) : list (list Segment) :=
  segments v :: history v ++ redoStack v.

(** Both ends of [s] are on the grid. *)
Definition wallOnGrid (s : Segment) : Prop := onGrid (start s) /\ onGrid (end_ s).

(** Grid snap is on, and every stored wall and the anchor are on the grid. *)
Definition gridInvariant (a : App) : Prop :=
  snapGridEnabled (viewport a) = true /\
  (forall ws s, In ws (wallSets (viewport a)) -> In s ws -> wallOnGrid s) /\
  (forall b, startPoint (plane a) = Some b -> onGrid b).

(** The values of [crypto.randomUUID ()] an event brings. *)
Definition eventUuids (e : Event) : list string :=
  match e with
  | PlaneClick _ u1 u2 u3 => [u1; u2; u3]
  | _ => []
  end.

(** Every stored wall set has unique ids, all among [used]. *)
Definition idsInvariant (used : list string) (v : Viewport) : Prop :=
  forall ws, In ws (wallSets v) -> NoDup (map id ws) /\ incl (map id ws) used.

(** On [oneWall], a first click at (2,-2): Drawing, anchored below the wall. *)
Definition belowWallAnchored : App :=
  run (oneWall ++ [PlaneClick (Some (pt 2 (-2))) "c1" "c2" "c3"]) initApp.

(** ** Rendering *)

Definition WALL_HEIGHT : Q := 3.
Definition WALL_WIDTH : Q := 1 # 5.

(** [length] of [WallSegment]: [Math.sqrt(dx*dx + dz*dz) || 0.0001]. *)
Definition wallLength (segment : Segment) : R :=
  let dx := px (end_ segment) - px (start segment) in
  let dz := pz (end_ segment) - pz (start segment) in
  let length := sqrt (Q2R (dx * dx + dz * dz)) in
  if Req_dec_T length 0 then Q2R (1 # 10000) else length.

(** [displayLen] of [WallSegment]: the length of the box that is drawn. *)
Definition displayLen (segment : Segment) : R :=
  let length := wallLength segment in
  let margin := Q2R (WALL_WIDTH * (1 # 2)) in
  if Rlt_dec (2 * margin) length
  then (length - 2 * margin)%R
  else (length * Q2R (1 # 2))%R.

(** [mid] of [WallSegment]: where the box is placed. *)
Definition wallMid (segment : Segment) : Point3 :=
  P3 ((px (start segment) + px (end_ segment)) / 2)
     (WALL_HEIGHT / 2)
     ((pz (start segment) + pz (end_ segment)) / 2).

(** Two points have the same key [`${p[0]}_${p[2]}`]: the same two plane
    coordinates. *)
Definition sameKey (p q : Point3) : bool :=
  Qeq_bool (px p) (px q) && Qeq_bool (pz p) (pz q).

(** [map.set(key of p, p)] on the values of a [Map], in insertion order: a
    new key goes last, a known key keeps its place and takes the new value. *)
Fixpoint mapSet (m : list Point3) (p : Point3) : list Point3 :=
  match m with
  | [] => [p]
  | q :: m' => if sameKey q p then p :: m' else q :: mapSet m' p
  end.

(** [uniqueVertices]: [Array.from(map.values())] after setting every snap
    point in turn. *)
Definition uniqueVertices (snapPoints : list Point3) : list Point3 :=
  fold_left mapSet snapPoints [].

(** No two points of [m] have the same key. *)
Fixpoint keysDistinct (m : list Point3) : Prop :=
  match m with
  | [] => True
  | q :: m' => (forall x, In x m' -> sameKey q x = false) /\ keysDistinct m'
  end.

(** * Proofs *)

(** ** Comparisons *)

Lemma Qltb_lt (x y : Q) : Qltb x y = true <-> x < y.
Proof.
  unfold Qltb. rewrite negb_true_iff. split; intro H.
  - apply Qnot_le_lt. intro Hle. apply Qle_bool_iff in Hle. congruence.
  - destruct (Qle_bool y x) eqn:E; [|reflexivity].
    apply Qle_bool_iff in E. exfalso. exact (Qlt_not_le _ _ H E).
Qed.

Lemma Qle_bool_false (x y : Q) : Qle_bool x y = false <-> y < x.
Proof.
  rewrite <- Qltb_lt. unfold Qltb. now rewrite negb_true_iff.
Qed.

Lemma Rltb_lt (x y : R) : Rltb x y = true <-> (x < y)%R.
Proof.
  unfold Rltb. destruct (Rlt_dec x y); split; intro; auto; discriminate.
Qed.

Lemma Rltb_ge (x y : R) : Rltb x y = false <-> (y <= x)%R.
Proof.
  unfold Rltb. destruct (Rlt_dec x y); split; intro; auto; try discriminate; lra.
Qed.

Lemma MIN_ANGLE_RAD_PI6 : MIN_ANGLE_RAD = (PI / 6)%R.
Proof. unfold MIN_ANGLE_RAD, MIN_ANGLE_DEG. field. Qed.

(** [Math.hypot] at a rational value. *)
Lemma Math_hypot_value (x z r : Q) :
  0 <= r -> x * x + z * z == r * r -> Math_hypot x z = Q2R r.
Proof.
  intros Hr E. unfold Math_hypot.
  rewrite (Qeq_eqR _ _ E), Q2R_mult.
  apply sqrt_square. rewrite <- RMicromega.Q2R_0. now apply Qle_Rle.
Qed.

(** ** The hit loop of [handleClick] *)

(** A reported hit carries its point and its parameter. *)
Lemma hit_shape (p1 p2 p3 p4 : Point3) :
  hit (segmentsIntersectionPoint2DWithT p1 p2 p3 p4) = true ->
  exists hp ht,
    segmentsIntersectionPoint2DWithT p1 p2 p3 p4
    = mkIntersection true (Some hp) (Some ht).
Proof.
  unfold segmentsIntersectionPoint2DWithT.
  destruct (Qltb (Qabs _) EPS); [discriminate|].
  destruct (_ && _ && _ && _); [|discriminate].
  intros _. eauto.
Qed.

Section HitLoop.

Variables startPoint' p : Point3.

Let res (seg : Segment) : IntersectionWithT :=
  segmentsIntersectionPoint2DWithT startPoint' p (start seg) (end_ seg).

Lemma hitStep_miss acc seg : hit (res seg) = false -> hitStep startPoint' p acc seg = acc.
Proof.
  unfold hitStep. fold (res seg). intros ->. reflexivity.
Qed.

Lemma hitStep_first walls seg :
  In seg walls -> hit (res seg) = true ->
  hitAcc startPoint' p walls (hitStep startPoint' p (None, None) seg).
Proof.
  intros Hin Hhit. exists seg. fold (res seg). repeat split; trivial.
  unfold hitStep. fold (res seg).
  destruct (hit_shape _ _ _ _ Hhit) as (hp & ht & E). fold (res seg) in E.
  rewrite E. reflexivity.
Qed.

Lemma hitStep_keeps walls acc seg :
  In seg walls ->
  hitAcc startPoint' p walls acc ->
  hitAcc startPoint' p walls (hitStep startPoint' p acc seg).
Proof.
  intros Hin (best & Hbest & Hhit & ->).
  assert (Hkeep : hitAcc startPoint' p walls (Some (res best), Some best))
    by (exists best; auto).
  unfold hitStep. fold (res seg) (res best).
  destruct (hit (res seg)) eqn:Hseg; [|exact Hkeep].
  destruct (hit_shape _ _ _ _ Hseg) as (hp & ht & E). fold (res seg) in E.
  rewrite E. cbn [point t fst].
  destruct (t (res best)) as [bt|]; [|exact Hkeep].
  destruct (Qltb ht bt); [|exact Hkeep].
  exists seg. fold (res seg). rewrite E. auto.
Qed.

Lemma hitLoop_keeps walls l : forall acc,
  incl l walls -> hitAcc startPoint' p walls acc ->
  hitAcc startPoint' p walls (fold_left (hitStep startPoint' p) l acc).
Proof.
  induction l as [|seg l IH]; intros acc Hincl Hacc; [exact Hacc|].
  cbn [fold_left]. apply IH.
  - intros x Hx. apply Hincl. now right.
  - apply hitStep_keeps; [apply Hincl; now left | exact Hacc].
Qed.

Lemma hitLoop_finds walls l :
  incl l walls ->
  existsb (fun seg => hit (res seg)) l = true ->
  hitAcc startPoint' p walls (fold_left (hitStep startPoint' p) l (None, None)).
Proof.
  induction l as [|seg l IH]; intros Hincl Hex; [discriminate|].
  cbn [fold_left existsb] in *.
  assert (Hl : incl l walls) by (intros x Hx; apply Hincl; now right).
  destruct (hit (res seg)) eqn:Hseg.
  - apply hitLoop_keeps; [exact Hl|].
    apply hitStep_first; [apply Hincl; now left | exact Hseg].
  - rewrite hitStep_miss by exact Hseg. apply IH; assumption.
Qed.

(** No wall is hit: the loop leaves [bestHit] and [bestSeg] null. *)
Lemma hitLoop_none segments' :
  wouldIntersectExistingWalls startPoint' p segments' = false ->
  hitLoop startPoint' p segments' = (None, None).
Proof.
  unfold hitLoop, wouldIntersectExistingWalls.
  generalize (@None IntersectionWithT, @None Segment).
  induction segments' as [|seg l IH]; intros acc Hex; [reflexivity|].
  cbn [fold_left existsb] in *. apply orb_false_iff in Hex as [Hseg Hl].
  rewrite hitStep_miss by exact Hseg. now apply IH.
Qed.

(** Some wall is hit: the loop ends on a hit wall of the wall set. *)
Lemma hitLoop_some segments' :
  wouldIntersectExistingWalls startPoint' p segments' = true ->
  exists bestSeg hp ht,
    In bestSeg segments' /\
    segmentsIntersectionPoint2DWithT startPoint' p (start bestSeg) (end_ bestSeg)
    = mkIntersection true (Some hp) (Some ht) /\
    hitLoop startPoint' p segments'
    = (Some (mkIntersection true (Some hp) (Some ht)), Some bestSeg).
Proof.
  intro Hex.
  destruct (hitLoop_finds segments' segments' (incl_refl _) Hex)
    as (seg & Hin & Hhit & E).
  destruct (hit_shape _ _ _ _ Hhit) as (hp & ht & Eres).
  exists seg, hp, ht. repeat split; trivial.
  unfold hitLoop. rewrite E. unfold res. now rewrite Eres.
Qed.

End HitLoop.

(** ** Scenarios *)

(** Two clicks, at (0,0) and (4,0), on the empty wall set: one wall. *)
Example scenario_one_wall :
  segments (viewport (run oneWall initApp)) = [drawnWall].
Proof. vm_compute. reflexivity. Qed.

(** A wall from (2,-2) to (2,2) across the middle of [drawnWall]: the wall is
    split at (2,0) and the new wall stops there. *)
Example scenario_t_junction :
  segments
    (viewport
       (run (oneWall ++
             [PlaneClick (Some (pt 2 (-2))) "c1" "c2" "c3";
              PlaneClick (Some (pt 2 2)) "d1" "d2" "d3"])
          initApp))
  = [mkSegment "d2" (snapToGrid (pt 0 0)) (snapToGrid (pt 2 0));
     mkSegment "d3" (snapToGrid (pt 2 0)) (snapToGrid (pt 4 0));
     mkSegment "d1" (snapToGrid (pt 2 (-2))) (snapToGrid (pt 2 0))].
Proof. vm_compute. reflexivity. Qed.

(** ** Commit click *)

Lemma distSq_same (b : Point3) : distSq b b == 0.
Proof. unfold distSq. cbv zeta. ring. Qed.

Lemma same_ends_degenerate (u : string) (b : Point3) (eps : Q) :
  0 <= eps -> degenerate eps (mkSegment u b b).
Proof.
  intro Heps. unfold degenerate, lengthSq. cbn [start end_].
  rewrite distSq_same. now apply Qmult_le_0_compat.
Qed.

(** A commit click in the Drawing state with no hit and an open gate. *)
Lemma handleClick_append a raw u1 u2 u3 b p :
  isDrawingMode (viewport a) = true ->
  isDrawing (plane a) = true ->
  startPoint (plane a) = Some b ->
  applySnap (snapGridEnabled (viewport a)) (snapPointsOf (segments (viewport a))) raw
  = Some p ->
  wouldIntersectExistingWalls b p (segments (viewport a)) = false ->
  canPlaceWall (plane a) = true ->
  handleClick raw u1 u2 u3 a
  = mkApp (pushHistory (segments (viewport a) ++ [mkSegment u1 b p]) (viewport a))
      resetDrawing.
Proof.
  intros Hmode Hdraw Hstart Hsnap Hmiss Hgate.
  unfold handleClick. cbv zeta.
  rewrite Hmode, Hsnap, Hdraw, Hstart. cbn [negb].
  rewrite (hitLoop_none _ _ _ Hmiss), Hgate. reflexivity.
Qed.

(** The wall set after [doubleClick]. *)
Lemma doubleClick_segments :
  segments (viewport (run doubleClick initApp))
  = [mkSegment "b1" (snapToGrid (pt 0 0)) (snapToGrid (pt 0 0))].
Proof. vm_compute. reflexivity. Qed.

(** The wall set after [nearCorner]: the first replacement wall runs from the
    corner (0,0) to the corner (0,0). *)
Lemma nearCorner_segments :
  segments (viewport (run nearCorner initApp))
  = [mkSegment "d2" (snapToGrid (pt 0 0)) (snapToGrid (pt 0 0));
     mkSegment "d3" (snapToGrid (pt 0 0)) (snapToGrid (pt 4 0));
     mkSegment "d1" (snapToGrid (pt 0 (-1))) (snapToGrid (pt 0 0))].
Proof. vm_compute. reflexivity. Qed.

(** C1, as stated, fails: after two clicks at the same point the wall set
    holds a wall of length zero, so for no [eps >= 0] is every reachable wall
    longer than [eps]. *)
Lemma reachable_zero_length_wall :
  ~ exists eps, 0 <= eps /\ wallsNonDegenerate eps.
Proof.
  intros (eps & Heps & Hall).
  apply (Hall doubleClick (mkSegment "b1" (snapToGrid (pt 0 0)) (snapToGrid (pt 0 0)))).
  - rewrite doubleClick_segments. now left.
  - now apply same_ends_degenerate.
Qed.

(** The T-junction split inserts a wall of length zero as well: on
    [nearCorner] the replacement wall ["d2"] has equal ends. *)
Lemma split_inserts_zero_length_wall :
  exists s,
    In s (segments (viewport (run nearCorner initApp))) /\
    forall eps, 0 <= eps -> degenerate eps s.
Proof.
  exists (mkSegment "d2" (snapToGrid (pt 0 0)) (snapToGrid (pt 0 0))). split.
  - rewrite nearCorner_segments. now left.
  - intros eps Heps. now apply same_ends_degenerate.
Qed.

(** C1, amended: the commit click has no length guard.  In the Drawing state,
    with no proper intersection and the gate open, the candidate wall from
    the anchor to the snapped click point is appended and committed whatever
    its length; when the click point is the anchor, the appended wall has
    length zero. *)
Theorem commit_click_has_no_length_guard a raw u1 u2 u3 b p :
  isDrawingMode (viewport a) = true ->
  isDrawing (plane a) = true ->
  startPoint (plane a) = Some b ->
  applySnap (snapGridEnabled (viewport a)) (snapPointsOf (segments (viewport a))) raw
  = Some p ->
  wouldIntersectExistingWalls b p (segments (viewport a)) = false ->
  canPlaceWall (plane a) = true ->
  segments (viewport (handleClick raw u1 u2 u3 a))
  = segments (viewport a) ++ [mkSegment u1 b p] /\
  history (viewport (handleClick raw u1 u2 u3 a))
  = history (viewport a) ++ [segments (viewport a)] /\
  (p = b -> forall eps, 0 <= eps -> degenerate eps (mkSegment u1 b p)).
Proof.
  intros Hmode Hdraw Hstart Hsnap Hmiss Hgate.
  rewrite (handleClick_append a raw u1 u2 u3 b p) by assumption.
  repeat split. intros -> eps Heps. now apply same_ends_degenerate.
Qed.

Lemma commit_click_has_no_length_guard_witness :
  segments (viewport (handleClick (Some (pt 0 0)) "b1" "b2" "b3" originAnchored))
  = [] ++ [mkSegment "b1" (snapToGrid (pt 0 0)) (snapToGrid (pt 0 0))] /\
  history (viewport (handleClick (Some (pt 0 0)) "b1" "b2" "b3" originAnchored))
  = [] ++ [[]] /\
  (snapToGrid (pt 0 0) = snapToGrid (pt 0 0) ->
   forall eps, 0 <= eps ->
   degenerate eps (mkSegment "b1" (snapToGrid (pt 0 0)) (snapToGrid (pt 0 0)))).
Proof.
  apply (commit_click_has_no_length_guard originAnchored (Some (pt 0 0)) "b1" "b2" "b3"
           (snapToGrid (pt 0 0)) (snapToGrid (pt 0 0)));
    vm_compute; reflexivity.
Defined.

(** ** Vertex snap *)

Section SnapLoop.

Variable snapped : Point3.

(** The running minimum never drops below a lower bound of the candidates. *)
Lemma snapLoop_bound (d : Q) (l : list Point3) : forall acc,
  d <= snd acc ->
  (forall q, In q l -> d <= distSq snapped q) ->
  d <= snd (fold_left (snapStep snapped) l acc).
Proof.
  induction l as [|sp l IH]; intros [closest m] Hm Hl; [exact Hm|].
  cbn [fold_left]. apply IH.
  - unfold snapStep. destruct (Qle_bool (distSq snapped sp) m); cbn [snd].
    + apply Hl. now left.
    + exact Hm.
  - intros q Hq. apply Hl. now right.
Qed.

(** Candidates strictly farther than the running minimum change nothing. *)
Lemma snapLoop_farther (closest : option Point3) (m : Q) (l : list Point3) :
  (forall q, In q l -> m < distSq snapped q) ->
  fold_left (snapStep snapped) l (closest, m) = (closest, m).
Proof.
  induction l as [|sp l IH]; intro Hl; [reflexivity|].
  cbn [fold_left]. unfold snapStep at 2.
  assert (E : Qle_bool (distSq snapped sp) m = false)
    by (apply Qle_bool_false, Hl; now left).
  rewrite E. apply IH. intros q Hq. apply Hl. now right.
Qed.

(** The loop ends on the last candidate at the least distance, when that
    distance is within the snap radius. *)
Lemma snapLoop_last (c : Point3) (before after : list Point3) :
  lastOfLeast snapped c before after ->
  distSq snapped c <= SNAP_RADIUS ^ 2 ->
  snapLoop snapped (before ++ c :: after) = (Some c, distSq snapped c).
Proof.
  intros [Hbefore Hafter] Hradius. unfold snapLoop.
  rewrite fold_left_app. cbn [fold_left].
  pose proof (snapLoop_bound (distSq snapped c) before (None, SNAP_RADIUS ^ 2)
                Hradius Hbefore) as Hm.
  destruct (fold_left (snapStep snapped) before (None, SNAP_RADIUS ^ 2))
    as [closest m].
  cbn [snd] in Hm. unfold snapStep at 2.
  apply Qle_bool_iff in Hm. rewrite Hm.
  now apply snapLoop_farther.
Qed.

End SnapLoop.

(** C2, as stated, fails: the candidates (0,0) and (1/2,0) are both at squared
    distance 1/16 from the grid point (1/4,0), within the radius, and
    [applySnap] returns the second one. *)
Lemma applySnap_tie_keeps_later_candidate :
  ~ (forall (snapGridEnabled' : bool) p c before after,
       firstOfTied (if snapGridEnabled' then snapToGrid p else p) c before after ->
       distSq (if snapGridEnabled' then snapToGrid p else p) c <= SNAP_RADIUS ^ 2 ->
       applySnap snapGridEnabled' (before ++ c :: after) (Some p) = Some c).
Proof.
  intro Hfirst.
  specialize (Hfirst true (pt (1 # 4) 0) (pt 0 0) [] [pt (1 # 2) 0]).
  assert (E : applySnap true ([] ++ [pt 0 0; pt (1 # 2) 0]) (Some (pt (1 # 4) 0))
              = Some (pt (1 # 2) 0)) by (vm_compute; reflexivity).
  rewrite E in Hfirst.
  assert (Hne : Some (pt (1 # 2) 0) <> Some (pt 0 0)) by discriminate.
  apply Hne, Hfirst.
  - repeat split.
    + intros q [].
    + intros q [<-|[]]. vm_compute. discriminate.
    + exists (pt (1 # 2) 0). split; [now left | vm_compute; reflexivity].
  - vm_compute. discriminate.
Qed.

(** C2, amended: when the least squared distance from the grid-snapped point
    to a candidate is at most radius squared, [applySnap] returns the last
    candidate at that least distance in iteration order; so among tied
    candidates the last one wins. *)
Theorem applySnap_returns_last_of_least (snapGridEnabled' : bool) p c before after :
  lastOfLeast (if snapGridEnabled' then snapToGrid p else p) c before after ->
  distSq (if snapGridEnabled' then snapToGrid p else p) c <= SNAP_RADIUS ^ 2 ->
  applySnap snapGridEnabled' (before ++ c :: after) (Some p) = Some c.
Proof.
  intros Hlast Hradius. unfold applySnap. cbv zeta.
  rewrite (snapLoop_last _ c before after Hlast Hradius). cbn [fst].
  destruct before; reflexivity.
Qed.

Lemma applySnap_returns_last_of_least_witness :
  applySnap true ([pt 0 0] ++ pt (1 # 2) 0 :: [pt 4 0]) (Some (pt (1 # 4) 0))
  = Some (pt (1 # 2) 0).
Proof.
  apply (applySnap_returns_last_of_least true (pt (1 # 4) 0) (pt (1 # 2) 0)
           [pt 0 0] [pt 4 0]).
  - split.
    + intros q [<-|[]]. vm_compute. discriminate.
    + intros q [<-|[]]. vm_compute. reflexivity.
  - vm_compute. discriminate.
Defined.

(** ** T-junction and block flag *)

(** A commit click in the Drawing state whose hit loop ends on a hit. *)
Lemma handleClick_split a raw u1 u2 u3 b p bestSeg hp ht :
  isDrawingMode (viewport a) = true ->
  isDrawing (plane a) = true ->
  startPoint (plane a) = Some b ->
  applySnap (snapGridEnabled (viewport a)) (snapPointsOf (segments (viewport a))) raw
  = Some p ->
  hitLoop b p (segments (viewport a))
  = (Some (mkIntersection true (Some hp) (Some ht)), Some bestSeg) ->
  handleClick raw u1 u2 u3 a
  = mkApp
      (pushHistory
         (splitAndInsert (segments (viewport a)) bestSeg (snapToGrid hp) b u1 u2 u3)
         (viewport a))
      resetDrawing.
Proof.
  intros Hmode Hdraw Hstart Hsnap Hloop.
  unfold handleClick. cbv zeta.
  rewrite Hmode, Hsnap, Hdraw, Hstart. cbn [negb].
  rewrite Hloop. reflexivity.
Qed.

(** C3: on a commit click in the Drawing state, when the candidate wall from
    the anchor to the snapped click point properly intersects some wall, the
    wall set becomes the split of a hit wall at the grid-snapped hit point, the
    previous wall set is pushed on the undo stack, the redo stack is emptied
    and the session is reset; the outcome is the same for every value of the
    two block flags. *)
Theorem split_commits_whatever_the_block_flags a raw u1 u2 u3 b p :
  isDrawingMode (viewport a) = true ->
  isDrawing (plane a) = true ->
  startPoint (plane a) = Some b ->
  applySnap (snapGridEnabled (viewport a)) (snapPointsOf (segments (viewport a))) raw
  = Some p ->
  wouldIntersectExistingWalls b p (segments (viewport a)) = true ->
  exists bestSeg hp ht,
    In bestSeg (segments (viewport a)) /\
    segmentsIntersectionPoint2DWithT b p (start bestSeg) (end_ bestSeg)
    = mkIntersection true (Some hp) (Some ht) /\
    forall previewBlocked' canPlaceWall',
      let after :=
        handleClick raw u1 u2 u3
          (mkApp (viewport a) (withBlockFlags previewBlocked' canPlaceWall' (plane a))) in
      segments (viewport after)
      = splitAndInsert (segments (viewport a)) bestSeg (snapToGrid hp) b u1 u2 u3 /\
      history (viewport after) = history (viewport a) ++ [segments (viewport a)] /\
      redoStack (viewport after) = [] /\
      plane after = resetDrawing /\
      after = handleClick raw u1 u2 u3 a.
Proof.
  intros Hmode Hdraw Hstart Hsnap Hhit.
  destruct (hitLoop_some b p _ Hhit) as (bestSeg & hp & ht & Hin & Hres & Hloop).
  exists bestSeg, hp, ht. split; [exact Hin|]. split; [exact Hres|].
  intros previewBlocked' canPlaceWall' after.
  assert (Ea : handleClick raw u1 u2 u3 a
               = mkApp
                   (pushHistory
                      (splitAndInsert (segments (viewport a)) bestSeg (snapToGrid hp)
                         b u1 u2 u3)
                      (viewport a))
                   resetDrawing)
    by (now apply handleClick_split with (p := p) (ht := ht)).
  assert (Eafter : after = handleClick raw u1 u2 u3 a).
  { rewrite Ea. unfold after.
    exact (handleClick_split
             (mkApp (viewport a) (withBlockFlags previewBlocked' canPlaceWall' (plane a)))
             raw u1 u2 u3 b p bestSeg hp ht Hmode Hdraw Hstart Hsnap Hloop). }
  rewrite Eafter, Ea. repeat split.
Qed.

Lemma split_commits_whatever_the_block_flags_witness :
  previewBlocked (plane blockedByCrossing) = true /\
  exists bestSeg hp ht,
    In bestSeg (segments (viewport blockedByCrossing)) /\
    segmentsIntersectionPoint2DWithT (snapToGrid (pt 2 (-2))) (snapToGrid (pt 2 2))
      (start bestSeg) (end_ bestSeg)
    = mkIntersection true (Some hp) (Some ht) /\
    forall previewBlocked' canPlaceWall',
      let after :=
        handleClick (Some (pt 2 2)) "d1" "d2" "d3"
          (mkApp (viewport blockedByCrossing)
             (withBlockFlags previewBlocked' canPlaceWall' (plane blockedByCrossing))) in
      segments (viewport after)
      = splitAndInsert (segments (viewport blockedByCrossing)) bestSeg (snapToGrid hp)
          (snapToGrid (pt 2 (-2))) "d1" "d2" "d3" /\
      history (viewport after)
      = history (viewport blockedByCrossing) ++ [segments (viewport blockedByCrossing)] /\
      redoStack (viewport after) = [] /\
      plane after = resetDrawing /\
      after = handleClick (Some (pt 2 2)) "d1" "d2" "d3" blockedByCrossing.
Proof.
  split; [vm_compute; reflexivity|].
  apply (split_commits_whatever_the_block_flags blockedByCrossing (Some (pt 2 2))
           "d1" "d2" "d3" (snapToGrid (pt 2 (-2))) (snapToGrid (pt 2 2)));
    vm_compute; reflexivity.
Defined.

(** ** Blocked click *)

(** C8: a commit click in the Drawing state with the preview blocked and no
    proper intersection of the candidate wall with any wall changes nothing:
    wall set, undo and redo stacks, selection and the whole session (anchor,
    current point, preview angle and flags) are as before. *)
Theorem blocked_click_without_hit_is_noop a raw u1 u2 u3 :
  isDrawing (plane a) = true ->
  flagsCoherent (plane a) ->
  previewBlocked (plane a) = true ->
  (forall b p,
     startPoint (plane a) = Some b ->
     applySnap (snapGridEnabled (viewport a)) (snapPointsOf (segments (viewport a))) raw
     = Some p ->
     wouldIntersectExistingWalls b p (segments (viewport a)) = false) ->
  handleClick raw u1 u2 u3 a = a.
Proof.
  intros Hdraw Hflags Hblocked Hmiss.
  unfold flagsCoherent in Hflags. rewrite Hblocked in Hflags. cbn [negb] in Hflags.
  unfold handleClick. cbv zeta.
  destruct (isDrawingMode (viewport a)); [|reflexivity]. cbn [negb].
  destruct (applySnap _ _ raw) as [p|] eqn:Hsnap; [|reflexivity].
  rewrite Hdraw. cbn [negb].
  destruct (startPoint (plane a)) as [b|] eqn:Hstart; [|reflexivity].
  rewrite (hitLoop_none b p _ (Hmiss b p eq_refl eq_refl)), Hflags. reflexivity.
Qed.

Lemma blocked_click_without_hit_is_noop_witness :
  handleClick (Some (pt 2 (-1))) "d1" "d2" "d3" blockedByCrossing = blockedByCrossing.
Proof.
  apply blocked_click_without_hit_is_noop.
  - vm_compute. reflexivity.
  - vm_compute. reflexivity.
  - vm_compute. reflexivity.
  - intros b p Hb Hp.
    vm_compute in Hb. injection Hb as <-.
    vm_compute in Hp. injection Hp as <-.
    vm_compute. reflexivity.
Defined.

(** ** Delete *)

Lemma filter_unknown_id (j : string) (l : list Segment) :
  (forall s, In s l -> id s <> j) ->
  filter (fun s => negb (String.eqb (id s) j)) l = l.
Proof.
  induction l as [|s l IH]; intro Hl; [reflexivity|].
  cbn [filter].
  destruct (String.eqb_spec (id s) j) as [E|_].
  - exfalso. apply (Hl s); [now left | exact E].
  - cbn [negb]. f_equal. apply IH. intros s' Hs'. apply Hl. now right.
Qed.




(** ** Undo and redo *)

(** With an empty redo stack, undo then redo restores wall set and stacks. *)
Lemma undo_redo_restores v :
  redoStack v = [] ->
  segments (handleRedo (handleUndo v)) = segments v /\
  redoStack (handleRedo (handleUndo v)) = [] /\
  history (handleRedo (handleUndo v)) = history v.
Proof.
  intro Hredo. unfold handleUndo.
  destruct (history v) as [|h0 hs] eqn:Hhist.
  - unfold handleRedo. rewrite Hredo. now rewrite Hhist.
  - unfold handleRedo. cbn [redoStack segments history]. rewrite Hredo.
    repeat split.
    rewrite <- (app_removelast_last (l := h0 :: hs) []) by discriminate.
    reflexivity.
Qed.

Lemma commitAll_redoStack commits : forall v,
  redoStack v = [] -> redoStack (commitAll commits v) = [].
Proof.
  induction commits as [|next commits IH]; intros v Hv; [exact Hv|].
  apply IH. reflexivity.
Qed.

(** C5: after any sequence of commits, from the initial viewport, [undo ()]
    followed by [redo ()] gives back the wall set that was current before the
    undo, leaves the redo stack empty, and leaves the undo stack as it was
    before the undo. *)
Theorem undo_redo_round_trip (commits : list (list Segment)) :
  segments (handleRedo (handleUndo (commitAll commits initViewport)))
  = segments (commitAll commits initViewport) /\
  redoStack (handleRedo (handleUndo (commitAll commits initViewport))) = [] /\
  history (handleRedo (handleUndo (commitAll commits initViewport)))
  = history (commitAll commits initViewport).
Proof.
  apply undo_redo_restores, commitAll_redoStack. reflexivity.
Qed.

(** ** Split and insert *)

Lemma flat_map_other_ids (target segA segB : Segment) (l : list Segment) :
  ~ In (id target) (map id l) ->
  flat_map (fun s => if String.eqb (id s) (id target) then [segA; segB] else [s]) l = l.
Proof.
  induction l as [|s l IH]; intro Hl; [reflexivity|].
  cbn [flat_map]. destruct (String.eqb_spec (id s) (id target)) as [E|_].
  - exfalso. apply Hl. left. exact E.
  - cbn [app]. f_equal. apply IH. intro Hin. apply Hl. now right.
Qed.

(** C6: on a wall set with unique ids that holds [target], the split at [X]
    with new start [S] replaces [target], in place, by a wall from
    [target.start] to [X] and a wall from [X] to [target.end], pushes a wall
    from [S] to [X] at the end, keeps every other wall (with its id) where it
    was, and makes the wall set longer by exactly 2. *)
Theorem splitAndInsert_shape walls target X S u1 u2 u3 :
  NoDup (map id walls) ->
  In target walls ->
  exists before after,
    walls = before ++ target :: after /\
    splitAndInsert walls target X S u1 u2 u3
    = before
      ++ [mkSegment u2 (start target) X; mkSegment u3 X (end_ target)]
      ++ after ++ [mkSegment u1 S X] /\
    (forall s, In s walls -> s <> target ->
               In s (splitAndInsert walls target X S u1 u2 u3)) /\
    List.length (splitAndInsert walls target X S u1 u2 u3) = (List.length walls + 2)%nat.
Proof.
  intros Hnodup Hin.
  destruct (in_split _ _ Hin) as (before & after & ->).
  exists before, after.
  rewrite map_app in Hnodup. cbn [map] in Hnodup.
  pose proof (NoDup_remove_2 _ _ _ Hnodup) as Hnotin.
  assert (Hbefore : ~ In (id target) (map id before))
    by (intro H; apply Hnotin, in_or_app; now left).
  assert (Hafter : ~ In (id target) (map id after))
    by (intro H; apply Hnotin, in_or_app; now right).
  assert (E : splitAndInsert (before ++ target :: after) target X S u1 u2 u3
              = before
                ++ [mkSegment u2 (start target) X; mkSegment u3 X (end_ target)]
                ++ after ++ [mkSegment u1 S X]).
  { unfold splitAndInsert. cbv zeta.
    rewrite flat_map_app. cbn [flat_map].
    rewrite String.eqb_refl.
    rewrite !flat_map_other_ids by assumption.
    rewrite <- !app_assoc. reflexivity. }
  split; [reflexivity|]. split; [exact E|]. split.
  - intros s Hs Hne. rewrite E.
    apply in_app_or in Hs as [Hs|[Hs|Hs]].
    + apply in_or_app. now left.
    + congruence.
    + apply in_or_app. right. cbn [app]. do 2 right. apply in_or_app. now left.
  - rewrite E. repeat (rewrite length_app; cbn [List.length]). lia.
Qed.

Lemma splitAndInsert_shape_witness :
  exists before after,
    threeWalls = before ++ wallW :: after /\
    splitAndInsert threeWalls wallW (pt 2 0) (pt 2 (-2)) "n1" "n2" "n3"
    = before
      ++ [mkSegment "n2" (start wallW) (pt 2 0); mkSegment "n3" (pt 2 0) (end_ wallW)]
      ++ after ++ [mkSegment "n1" (pt 2 (-2)) (pt 2 0)] /\
    (forall s, In s threeWalls -> s <> wallW ->
               In s (splitAndInsert threeWalls wallW (pt 2 0) (pt 2 (-2)) "n1" "n2" "n3")) /\
    List.length (splitAndInsert threeWalls wallW (pt 2 0) (pt 2 (-2)) "n1" "n2" "n3")
    = (List.length threeWalls + 2)%nat.
Proof.
  apply (splitAndInsert_shape threeWalls wallW (pt 2 0) (pt 2 (-2)) "n1" "n2" "n3").
  - repeat constructor; cbn; intuition discriminate.
  - right. now left.
Defined.

(** ** Angle check on pointer move *)

(** A pointer move in the Drawing state, with anchor [b] and snapped
    pointer [p]. *)
Lemma handlePointerMove_drawing a raw b p :
  isDrawingMode (viewport a) = true ->
  isDrawing (plane a) = true ->
  startPoint (plane a) = Some b ->
  applySnap (snapGridEnabled (viewport a)) (snapPointsOf (segments (viewport a))) raw
  = Some p ->
  handlePointerMove raw a
  = mkApp (viewport a)
      (mkPlane true (Some b) (Some p)
         (snd (angleCheck (segments (viewport a)) b p))
         (fst (angleCheck (segments (viewport a)) b p)
          || wouldIntersectExistingWalls b p (segments (viewport a)))
         (negb (fst (angleCheck (segments (viewport a)) b p)
                || wouldIntersectExistingWalls b p (segments (viewport a))))).
Proof.
  intros Hmode Hdraw Hstart Hsnap.
  unfold handlePointerMove. cbv zeta.
  rewrite Hmode, Hdraw, Hsnap, Hstart. reflexivity.
Qed.

(** C7: on a pointer move in the Drawing state whose anchor touches a wall,
    [tooSharp] is set exactly when the angle at the anchor, between the far
    end of the last touching wall and the pointer, is strictly below pi/6.
    The move records that angle; an angle of pi/6 or more does not block by
    itself, and any angle strictly below pi/6 blocks. *)
Theorem tooSharp_iff_angle_below_minimum a raw b p w :
  isDrawingMode (viewport a) = true ->
  isDrawing (plane a) = true ->
  startPoint (plane a) = Some b ->
  applySnap (snapGridEnabled (viewport a)) (snapPointsOf (segments (viewport a))) raw
  = Some p ->
  lastTouching (segments (viewport a)) b = Some w ->
  let angle := angleAtVertexDot (farEndpoint w b) b p in
  let tooSharp := fst (angleCheck (segments (viewport a)) b p) in
  let after := plane (handlePointerMove raw a) in
  (tooSharp = true <-> (angle < PI / 6)%R) /\
  previewAngle after = Some angle /\
  previewBlocked after
  = tooSharp || wouldIntersectExistingWalls b p (segments (viewport a)) /\
  canPlaceWall after = negb (previewBlocked after) /\
  ((PI / 6 <= angle)%R -> tooSharp = false) /\
  ((angle < PI / 6)%R -> previewBlocked after = true).
Proof.
  intros Hmode Hdraw Hstart Hsnap Htouch angle tooSharp after.
  assert (Echeck : angleCheck (segments (viewport a)) b p
                   = (Rltb angle MIN_ANGLE_RAD, Some angle))
    by (unfold angleCheck; now rewrite Htouch).
  assert (Esharp : tooSharp = Rltb angle (PI / 6))
    by (unfold tooSharp; rewrite Echeck, MIN_ANGLE_RAD_PI6; reflexivity).
  unfold after.
  rewrite (handlePointerMove_drawing a raw b p) by assumption.
  cbn [plane previewAngle previewBlocked canPlaceWall].
  fold tooSharp. rewrite Echeck. cbn [snd].
  rewrite Esharp.
  split; [apply Rltb_lt|]. repeat split.
  - intro Hge. now apply Rltb_ge.
  - intro Hlt. apply Rltb_lt in Hlt. now rewrite Hlt.
Qed.

Lemma tooSharp_iff_angle_below_minimum_witness :
  (sampleTooSharp = true <-> (sampleAngle < PI / 6)%R) /\
  previewAngle sampleAfterMove = Some sampleAngle /\
  previewBlocked sampleAfterMove
  = sampleTooSharp
    || wouldIntersectExistingWalls (snapToGrid (pt 4 0)) (snapToGrid (pt 2 2))
         (segments (viewport cornerAnchored)) /\
  canPlaceWall sampleAfterMove = negb (previewBlocked sampleAfterMove) /\
  ((PI / 6 <= sampleAngle)%R -> sampleTooSharp = false) /\
  ((sampleAngle < PI / 6)%R -> previewBlocked sampleAfterMove = true).
Proof.
  apply (tooSharp_iff_angle_below_minimum cornerAnchored (Some (pt 2 2))
           (snapToGrid (pt 4 0)) (snapToGrid (pt 2 2)) drawnWall);
    vm_compute; reflexivity.
Defined.

Lemma sqrt_8 : sqrt 8 = (2 * sqrt 2)%R.
Proof.
  replace 8%R with ((2 * 2) * 2)%R by lra.
  rewrite sqrt_mult by lra. now rewrite sqrt_square by lra.
Qed.

(** From (4,0), a preview to (2,2) makes the angle pi/4 with the wall. *)
Lemma sampleAngle_PI4 : sampleAngle = (PI / 4)%R.
Proof.
  unfold sampleAngle, angleAtVertexDot. cbv zeta.
  rewrite (Math_hypot_value _ _ 4) by (vm_compute; first [reflexivity | discriminate]).
  assert (E4 : Q2R 4 = 4%R) by (unfold Q2R; cbn; lra).
  assert (E8 : Q2R 8 = 8%R) by (unfold Q2R; cbn; lra).
  unfold Math_hypot.
  match goal with
  | |- context [sqrt (Q2R ?q)] => rewrite (Qeq_eqR q 8) by (vm_compute; reflexivity)
  end.
  match goal with
  | |- context [(Q2R ?q / _)%R] => rewrite (Qeq_eqR q 8) by (vm_compute; reflexivity)
  end.
  rewrite E4, E8, sqrt_8.
  assert (Hs : (1 < sqrt 2)%R).
  { rewrite <- sqrt_1 at 1. apply sqrt_lt_1; lra. }
  destruct (Req_dec_T 4 0) as [H|_]; [lra|].
  destruct (Req_dec_T (2 * sqrt 2) 0) as [H|_]; [lra|].
  replace (8 / (4 * (2 * sqrt 2)))%R with (/ sqrt 2)%R by (field; lra).
  assert (Hinv : (0 < / sqrt 2 < 1)%R).
  { split; [apply Rinv_0_lt_compat; lra|].
    assert (H1 : (/ sqrt 2 < / 1)%R) by (apply Rinv_lt_contravar; lra).
    now rewrite Rinv_1 in H1. }
  rewrite Rmax_right by lra. rewrite Rmin_right by lra.
  apply acos_inv_sqrt2.
Qed.

(** At pi/4 the move does not set [tooSharp]. *)
Lemma sampleTooSharp_false : sampleTooSharp = false.
Proof.
  unfold sampleTooSharp, angleCheck.
  replace (lastTouching (segments (viewport cornerAnchored)) (snapToGrid (pt 4 0)))
    with (Some drawnWall) by (vm_compute; reflexivity).
  cbn [fst]. fold sampleAngle. rewrite sampleAngle_PI4, MIN_ANGLE_RAD_PI6.
  apply Rltb_ge. pose proof PI_RGT_0. lra.
Qed.

(** ** Commit without a pointer move *)

(** A preview from (4,0) back along the wall to (2,0) makes the angle 0 with
    the wall. *)
Lemma angle_fold_back :
  angleAtVertexDot (farEndpoint drawnWall (snapToGrid (pt 4 0)))
    (snapToGrid (pt 4 0)) (snapToGrid (pt 2 0)) = 0%R.
Proof.
  unfold angleAtVertexDot. cbv zeta.
  rewrite (Math_hypot_value _ _ 4) by (vm_compute; first [reflexivity | discriminate]).
  rewrite (Math_hypot_value _ _ 2) by (vm_compute; first [reflexivity | discriminate]).
  assert (E4 : Q2R 4 = 4%R) by (unfold Q2R; cbn; lra).
  assert (E2 : Q2R 2 = 2%R) by (unfold Q2R; cbn; lra).
  rewrite E4, E2.
  destruct (Req_dec_T 4 0) as [H|_]; [lra|].
  destruct (Req_dec_T 2 0) as [H|_]; [lra|].
  match goal with |- context [Q2R ?q] => rewrite (Qeq_eqR q 8) by (vm_compute; reflexivity) end.
  assert (E8 : Q2R 8 = 8%R) by (unfold Q2R; cbn; lra).
  rewrite E8.
  replace (8 / (4 * 2))%R with 1%R by lra.
  rewrite Rmax_right by lra. rewrite Rmin_left by lra.
  apply acos_1.
Qed.

(** C9: the block is computed on pointer moves only.  With draw mode on and
    the session idle, a first click that anchors at a vertex [b] of a wall,
    followed at once by a click at [p] whose candidate wall hits no wall,
    appends and commits the wall from [b] to [p] although the angle at [b]
    with the touching wall is below the minimum: the gate still has the value
    set by the first click.  Had the pointer moved to [p] in between, the
    preview would be blocked and the same click would change nothing. *)
Theorem commit_without_move_skips_angle_check
  v d raw1 raw2 u1 u2 u3 u4 u5 u6 b p w :
  isDrawingMode v = true ->
  isDrawing d = false ->
  applySnap (snapGridEnabled v) (snapPointsOf (segments v)) raw1 = Some b ->
  applySnap (snapGridEnabled v) (snapPointsOf (segments v)) raw2 = Some p ->
  lastTouching (segments v) b = Some w ->
  (angleAtVertexDot (farEndpoint w b) b p < MIN_ANGLE_RAD)%R ->
  wouldIntersectExistingWalls b p (segments v) = false ->
  let anchored := handleClick raw1 u1 u2 u3 (mkApp v d) in
  let moved := handlePointerMove raw2 anchored in
  previewBlocked (plane anchored) = false /\
  canPlaceWall (plane anchored) = true /\
  segments (viewport (handleClick raw2 u4 u5 u6 anchored))
  = segments v ++ [mkSegment u4 b p] /\
  history (viewport (handleClick raw2 u4 u5 u6 anchored))
  = history v ++ [segments v] /\
  isDrawing (plane (handleClick raw2 u4 u5 u6 anchored)) = false /\
  previewBlocked (plane moved) = true /\
  handleClick raw2 u4 u5 u6 moved = moved.
Proof.
  intros Hmode Hidle Hsnap1 Hsnap2 Htouch Hangle Hmiss anchored moved.
  assert (Eanchored : anchored
                      = mkApp (setSelectedId None v)
                          (mkPlane true (Some b) (Some b) None false true)).
  { unfold anchored, handleClick. cbv zeta. cbn [viewport plane].
    now rewrite Hmode, Hsnap1, Hidle. }
  assert (Eclick : handleClick raw2 u4 u5 u6 anchored
                   = mkApp (pushHistory (segments v ++ [mkSegment u4 b p])
                              (setSelectedId None v))
                       resetDrawing).
  { rewrite Eanchored. now apply handleClick_append. }
  assert (Emoved : moved
                   = mkApp (setSelectedId None v)
                       (mkPlane true (Some b) (Some p)
                          (Some (angleAtVertexDot (farEndpoint w b) b p)) true false)).
  { unfold moved. rewrite Eanchored.
    rewrite (handlePointerMove_drawing _ raw2 b p) by (try reflexivity; assumption).
    cbn [viewport setSelectedId segments].
    unfold angleCheck. rewrite Htouch, Hmiss. cbn [fst snd].
    apply Rltb_lt in Hangle. now rewrite Hangle. }
  rewrite Eclick, Emoved. rewrite Eanchored. cbn [plane viewport].
  repeat split.
  unfold handleClick. cbv zeta.
  cbn [viewport plane setSelectedId isDrawingMode snapGridEnabled segments
         isDrawing startPoint canPlaceWall].
  rewrite Hmode, Hsnap2. cbn [negb].
  now rewrite (hitLoop_none b p _ Hmiss).
Qed.

Lemma commit_without_move_skips_angle_check_witness :
  previewBlocked (plane foldBackAnchored) = false /\
  canPlaceWall (plane foldBackAnchored) = true /\
  segments (viewport (handleClick (Some (pt 2 0)) "d1" "d2" "d3" foldBackAnchored))
  = segments oneWallDrawn
    ++ [mkSegment "d1" (snapToGrid (pt 4 0)) (snapToGrid (pt 2 0))] /\
  history (viewport (handleClick (Some (pt 2 0)) "d1" "d2" "d3" foldBackAnchored))
  = history oneWallDrawn ++ [segments oneWallDrawn] /\
  isDrawing (plane (handleClick (Some (pt 2 0)) "d1" "d2" "d3" foldBackAnchored))
  = false /\
  previewBlocked (plane (handlePointerMove (Some (pt 2 0)) foldBackAnchored)) = true /\
  handleClick (Some (pt 2 0)) "d1" "d2" "d3"
    (handlePointerMove (Some (pt 2 0)) foldBackAnchored)
  = handlePointerMove (Some (pt 2 0)) foldBackAnchored.
Proof.
  apply (commit_without_move_skips_angle_check oneWallDrawn resetDrawing
           (Some (pt 4 0)) (Some (pt 2 0)) "c1" "c2" "c3" "d1" "d2" "d3"
           (snapToGrid (pt 4 0)) (snapToGrid (pt 2 0)) drawnWall).
  - vm_compute. reflexivity.
  - vm_compute. reflexivity.
  - vm_compute. reflexivity.
  - vm_compute. reflexivity.
  - vm_compute. reflexivity.
  - rewrite angle_fold_back, MIN_ANGLE_RAD_PI6.
    apply Rdiv_lt_0_compat; [apply PI_RGT_0 | lra].
  - vm_compute. reflexivity.
Defined.

(** ** Invariant of the event loop *)

Lemma selectionValid_None v : selectedId v = None -> selectionValid v.
Proof. unfold selectionValid. now intros ->. Qed.

Lemma commit_invariant next v :
  selectedId v = None -> appInvariant (mkApp (pushHistory next v) resetDrawing).
Proof.
  intro Hsel. split; [|split].
  - now intros _.
  - now apply selectionValid_None.
  - reflexivity.
Qed.

Lemma handleClick_invariant raw u1 u2 u3 a :
  appInvariant a -> appInvariant (handleClick raw u1 u2 u3 a).
Proof.
  intros (Hmode & Hvalid & Hflags). unfold handleClick. cbv zeta.
  destruct (isDrawingMode (viewport a)) eqn:Emode; cbn [negb];
    [|now split; [rewrite Emode|]].
  specialize (Hmode eq_refl).
  assert (Hkeep : appInvariant a) by (split; [now intros _ | now split]).
  destruct (applySnap _ _ raw) as [p|]; [|exact Hkeep].
  destruct (isDrawing (plane a)); cbn [negb].
  - destruct (startPoint (plane a)) as [b|]; [|exact Hkeep].
    destruct (hitLoop b p (segments (viewport a))) as [[bestHit|] [bestSeg|]];
      [destruct (point bestHit); [now apply commit_invariant | exact Hkeep] | | |].
    all: destruct (canPlaceWall (plane a)); cbn [negb];
      [now apply commit_invariant | exact Hkeep].
  - split; [|split]; try reflexivity; now apply selectionValid_None.
Qed.

Lemma handlePointerMove_invariant raw a :
  appInvariant a -> appInvariant (handlePointerMove raw a).
Proof.
  intros (Hmode & Hvalid & Hflags). unfold handlePointerMove. cbv zeta.
  assert (Hkeep : appInvariant a) by now repeat split.
  destruct (negb (isDrawingMode (viewport a)) || negb (isDrawing (plane a)));
    [exact Hkeep|].
  destruct (applySnap _ _ raw) as [p|]; [|exact Hkeep].
  destruct (startPoint (plane a)) as [b|]; now repeat split.
Qed.

Lemma step_invariant a e : appInvariant a -> appInvariant (step a e).
Proof.
  intro Hinv. destruct e; cbn [step].
  - (* EnterDraw *)
    destruct Hinv as (_ & _ & Hflags).
    split; [|split]; [reflexivity | now apply selectionValid_None | exact Hflags].
  - (* StopDraw *)
    destruct Hinv as (Hmode & Hvalid & Hflags). unfold stopDrawing.
    destruct (isDrawingMode (viewport a)) eqn:Emode.
    + split; [|split]; [discriminate | exact Hvalid | reflexivity].
    + split; [now rewrite Emode | now split].
  - (* ToggleSnapGrid *)
    exact Hinv.
  - (* Undo *)
    destruct Hinv as (Hmode & Hvalid & Hflags).
    unfold onViewport, handleUndo. cbn [viewport plane].
    destruct (history (viewport a)); [now repeat split|].
    split; [|split]; [reflexivity | now apply selectionValid_None | exact Hflags].
  - (* Redo *)
    destruct Hinv as (Hmode & Hvalid & Hflags).
    unfold onViewport, handleRedo. cbn [viewport plane].
    destruct (redoStack (viewport a)); [now repeat split|].
    split; [|split]; [reflexivity | now apply selectionValid_None | exact Hflags].
  - (* DeleteSelected *)
    assert (Hkeep : appInvariant (mkApp (viewport a) (plane a))) by exact Hinv.
    destruct Hinv as (Hmode & Hvalid & Hflags).
    unfold onViewport, handleDeleteSelected.
    destruct (selectedId (viewport a)) as [i|]; [|exact Hkeep].
    destruct (falsyId (Some i)); [exact Hkeep|].
    split; [|split]; [reflexivity | now apply selectionValid_None | exact Hflags].
  - (* WallClick *)
    destruct (nth_error (segments (viewport a)) i) as [segment|] eqn:Enth;
      [|exact Hinv].
    assert (Hkeep : appInvariant (mkApp (viewport a) (plane a))) by exact Hinv.
    destruct Hinv as (Hmode & Hvalid & Hflags).
    unfold onViewport, wallOnClick.
    destruct (isDrawingMode (viewport a)) eqn:Emode; [exact Hkeep|].
    split; [|split]; [cbn; now rewrite Emode | | exact Hflags].
    destruct (match selectedId (viewport a) with
              | Some i0 => String.eqb i0 (id segment)
              | None => false
              end).
    + now apply selectionValid_None.
    + exists segment. split; [|reflexivity].
      cbn. exact (nth_error_In _ _ Enth).
  - (* PlaneClick *)
    now apply handleClick_invariant.
  - (* PlaneMove *)
    now apply handlePointerMove_invariant.
Qed.

Lemma run_invariant events : forall a, appInvariant a -> appInvariant (run events a).
Proof.
  induction events as [|e events IH]; intros a Hinv; [exact Hinv|].
  cbn [run fold_left]. apply IH. now apply step_invariant.
Qed.

Lemma initApp_invariant : appInvariant initApp.
Proof. now repeat split. Qed.

(** In every reachable state the two block flags agree. *)
Lemma reachable_flagsCoherent a : reachable a -> flagsCoherent (plane a).
Proof.
  intros (events & <-). apply (run_invariant events initApp initApp_invariant).
Qed.

(** C10: in every state reached from the initial one by any sequence of
    events, the selected id is null or the id of a wall of the current wall
    set, and it is null whenever draw mode is on; every event keeps this
    invariant; entering draw mode clears the selection, and so does the first
    click of a placement. *)
Theorem selection_is_null_or_a_current_wall :
  (forall events, selectionValid (viewport (run events initApp))) /\
  (forall events,
     isDrawingMode (viewport (run events initApp)) = true ->
     selectedId (viewport (run events initApp)) = None) /\
  (forall a e, appInvariant a -> appInvariant (step a e)) /\
  (forall v, selectedId (handleEnterDraw v) = None) /\
  (forall a raw u1 u2 u3 p,
     isDrawingMode (viewport a) = true ->
     isDrawing (plane a) = false ->
     applySnap (snapGridEnabled (viewport a)) (snapPointsOf (segments (viewport a))) raw
     = Some p ->
     selectedId (viewport (handleClick raw u1 u2 u3 a)) = None /\
     isDrawing (plane (handleClick raw u1 u2 u3 a)) = true).
Proof.
  split; [|split; [|split; [|split]]].
  - intro events. apply (run_invariant events initApp initApp_invariant).
  - intro events. apply (run_invariant events initApp initApp_invariant).
  - exact step_invariant.
  - reflexivity.
  - intros a raw u1 u2 u3 p Hmode Hidle Hsnap.
    unfold handleClick. cbv zeta. rewrite Hmode, Hsnap, Hidle. now split.
Qed.

(** * Further properties *)

(** ** Grid snap *)

Lemma Qfloor_unique (x : Q) (n : Z) :
  inject_Z n <= x -> x < inject_Z (n + 1) -> Qfloor x = n.
Proof.
  intros Hle Hlt.
  pose proof (Qfloor_le x) as Hfl. pose proof (Qlt_floor x) as Hfu.
  assert (H1 : (Qfloor x < n + 1)%Z)
    by (rewrite Zlt_Qlt; eapply Qle_lt_trans; eassumption).
  assert (H2 : (n < Qfloor x + 1)%Z)
    by (rewrite Zlt_Qlt; eapply Qle_lt_trans; eassumption).
  lia.
Qed.

Lemma Math_round_comp (x y : Q) : x == y -> Math_round x = Math_round y.
Proof.
  intro E. unfold Math_round. f_equal. apply Qfloor_comp. now rewrite E.
Qed.

Lemma Math_round_inject_Z (n : Z) : Math_round (inject_Z n) = inject_Z n.
Proof.
  unfold Math_round. f_equal. apply Qfloor_unique.
  - generalize (inject_Z n). intro q. Lqa.lra.
  - rewrite inject_Z_plus. change (inject_Z 1) with 1.
    generalize (inject_Z n). intro q. Lqa.lra.
Qed.

(** [Math.round] is within one half of its argument. *)
Lemma Math_round_near (x : Q) : x - (1 # 2) < Math_round x /\ Math_round x <= x + (1 # 2).
Proof.
  unfold Math_round.
  pose proof (Qfloor_le (x + (1 # 2))) as Hfl.
  pose proof (Qlt_floor (x + (1 # 2))) as Hfu.
  rewrite inject_Z_plus in Hfu. change (inject_Z 1) with 1 in Hfu.
  revert Hfl Hfu. generalize (inject_Z (Qfloor (x + (1 # 2)))). intros q Hfl Hfu.
  split; Lqa.lra.
Qed.

(** One coordinate of [snapToGrid], snapped again. *)
Lemma snapCoordinate_again (x : Q) :
  Math_round (Math_round (x / GRID_SIZE) * GRID_SIZE / GRID_SIZE) * GRID_SIZE
  = Math_round (x / GRID_SIZE) * GRID_SIZE.
Proof.
  f_equal.
  rewrite (Math_round_comp _ (Math_round (x / GRID_SIZE))).
  - unfold Math_round at 2. apply Math_round_inject_Z.
  - unfold GRID_SIZE. field.
Qed.

(** X1: [snapToGrid] is idempotent: a snapped point snaps to itself. *)
Theorem snapToGrid_idempotent (p : Point3) :
  snapToGrid (snapToGrid p) = snapToGrid p.
Proof.
  unfold snapToGrid. cbn [px py pz].
  now rewrite !snapCoordinate_again.
Qed.

(** X2: [snapToGrid] moves each plane coordinate by at most half a grid
    step, onto an integer multiple of the grid step, and keeps the vertical
    coordinate. *)
Theorem snapToGrid_nearest_grid_point (p : Point3) :
  Qabs (px (snapToGrid p) - px p) <= GRID_SIZE / 2 /\
  Qabs (pz (snapToGrid p) - pz p) <= GRID_SIZE / 2 /\
  py (snapToGrid p) = py p /\
  (exists n m : Z,
     px (snapToGrid p) = inject_Z n * GRID_SIZE /\
     pz (snapToGrid p) = inject_Z m * GRID_SIZE).
Proof.
  unfold snapToGrid. cbn [px py pz].
  assert (Hnear : forall x, Qabs (Math_round (x / GRID_SIZE) * GRID_SIZE - x)
                            <= GRID_SIZE / 2).
  { intro x. destruct (Math_round_near (x / GRID_SIZE)) as [Hl Hu].
    assert (E : x / GRID_SIZE == x * 4) by (unfold GRID_SIZE; field).
    revert Hl Hu E. generalize (x / GRID_SIZE). intro y.
    generalize (Math_round y). intros q Hl Hu E.
    assert (Ehalf : GRID_SIZE / 2 == 1 # 8) by reflexivity.
    rewrite Ehalf. apply Qabs_Qle_condition. unfold GRID_SIZE. split; Lqa.lra. }
  repeat split; try apply Hnear.
  exists (Qfloor (px p / GRID_SIZE + (1 # 2))), (Qfloor (pz p / GRID_SIZE + (1 # 2))).
  split; reflexivity.
Qed.

(** ** Vertex snap *)

Lemma snapLoop_snoc snapped l sp :
  snapLoop snapped (l ++ [sp]) = snapStep snapped (snapLoop snapped l) sp.
Proof. unfold snapLoop. now rewrite fold_left_app. Qed.

(** What the loop of [applySnap] holds at its end. *)
Lemma snapLoop_spec snapped l :
  match snapLoop snapped l with
  | (None, m) =>
      m = SNAP_RADIUS ^ 2 /\
      forall q, In q l -> SNAP_RADIUS ^ 2 < distSq snapped q
  | (Some c, m) =>
      In c l /\ m = distSq snapped c /\ m <= SNAP_RADIUS ^ 2 /\
      forall q, In q l -> m <= distSq snapped q
  end.
Proof.
  induction l as [|sp l IH] using rev_ind.
  - cbn. split; [reflexivity | intros q []].
  - rewrite snapLoop_snoc.
    destruct (snapLoop snapped l) as [[c|] m]; unfold snapStep.
    + destruct IH as (Hin & -> & Hradius & Hmin).
      destruct (Qle_bool (distSq snapped sp) (distSq snapped c)) eqn:E.
      * apply Qle_bool_iff in E. repeat split.
        -- apply in_or_app. right. now left.
        -- eapply Qle_trans; eassumption.
        -- intros q Hq. apply in_app_or in Hq as [Hq|[<-|[]]].
           ++ eapply Qle_trans; [exact E | now apply Hmin].
           ++ apply Qle_refl.
      * apply Qle_bool_false in E. repeat split; trivial.
        -- apply in_or_app. now left.
        -- intros q Hq. apply in_app_or in Hq as [Hq|[<-|[]]].
           ++ now apply Hmin.
           ++ now apply Qlt_le_weak.
    + destruct IH as (-> & Hfar).
      destruct (Qle_bool (distSq snapped sp) (SNAP_RADIUS ^ 2)) eqn:E.
      * apply Qle_bool_iff in E. repeat split; trivial.
        -- apply in_or_app. right. now left.
        -- intros q Hq. apply in_app_or in Hq as [Hq|[<-|[]]].
           ++ eapply Qle_trans; [exact E | apply Qlt_le_weak; now apply Hfar].
           ++ apply Qle_refl.
      * apply Qle_bool_false in E. split; trivial.
        intros q Hq. apply in_app_or in Hq as [Hq|[<-|[]]]; auto.
Qed.

(** X3: [applySnap] on a present point always returns a point: either a
    candidate vertex that is within the snap radius of the (grid-)snapped
    point and at least as near to it as every other candidate, or, when every
    candidate is farther than the radius, the (grid-)snapped point itself. *)
Theorem applySnap_nearest_vertex_or_grid (snapGridEnabled' : bool) snapPoints p :
  exists r,
    applySnap snapGridEnabled' snapPoints (Some p) = Some r /\
    ((In r snapPoints /\
      distSq (if snapGridEnabled' then snapToGrid p else p) r <= SNAP_RADIUS ^ 2 /\
      forall q, In q snapPoints ->
                distSq (if snapGridEnabled' then snapToGrid p else p) r
                <= distSq (if snapGridEnabled' then snapToGrid p else p) q)
     \/
     (r = (if snapGridEnabled' then snapToGrid p else p) /\
      forall q, In q snapPoints ->
                SNAP_RADIUS ^ 2 < distSq (if snapGridEnabled' then snapToGrid p else p) q)).
Proof.
  unfold applySnap. cbv zeta.
  set (snapped := if snapGridEnabled' then snapToGrid p else p).
  pose proof (snapLoop_spec snapped snapPoints) as Hloop.
  destruct snapPoints as [|sp0 sps].
  - exists snapped. split; [reflexivity|]. right. split; [reflexivity | intros q []].
  - destruct (snapLoop snapped (sp0 :: sps)) as [[c|] m]; cbn [fst].
    + destruct Hloop as (Hin & -> & Hradius & Hmin).
      exists c. split; [reflexivity|]. left. auto.
    + destruct Hloop as (_ & Hfar).
      exists snapped. split; [reflexivity|]. right. auto.
Qed.

(** ** Segment intersection *)

Lemma Qltb_comp (x x' y y' : Q) : x == x' -> y == y' -> Qltb x y = Qltb x' y'.
Proof. intros Ex Ey. unfold Qltb. now rewrite Ex, Ey. Qed.

(** The test [Math.abs(denom) < 1e-6] fails only on a nonzero [denom]. *)
Lemma denom_nonzero (denom : Q) : Qltb (Qabs denom) EPS = false -> ~ denom == 0.
Proof.
  intros Hbig Hzero.
  assert (Hlt : Qltb (Qabs denom) EPS = true).
  { apply Qltb_lt. rewrite Hzero. reflexivity. }
  congruence.
Qed.

(** X4: a reported hit is a proper crossing: its point lies on the first
    segment at the reported parameter [t], strictly between [1e-6] and
    [1 - 1e-6], and on the second segment at a parameter [u] in the same
    open range; its vertical coordinate is 0. *)
Theorem hit_point_on_both_segments (p1 p2 p3 p4 : Point3) :
  hit (segmentsIntersectionPoint2DWithT p1 p2 p3 p4) = true ->
  exists ip tt u,
    segmentsIntersectionPoint2DWithT p1 p2 p3 p4
    = mkIntersection true (Some ip) (Some tt) /\
    EPS < tt /\ tt < 1 - EPS /\ EPS < u /\ u < 1 - EPS /\
    px ip == px p1 + tt * (px p2 - px p1) /\
    pz ip == pz p1 + tt * (pz p2 - pz p1) /\
    px ip == px p3 + u * (px p4 - px p3) /\
    pz ip == pz p3 + u * (pz p4 - pz p3) /\
    py ip = 0.
Proof.
  unfold segmentsIntersectionPoint2DWithT. cbv zeta.
  set (denom := (px p1 - px p2) * (pz p3 - pz p4) - (pz p1 - pz p2) * (px p3 - px p4)).
  destruct (Qltb (Qabs denom) EPS) eqn:Hden; [discriminate|].
  apply denom_nonzero in Hden.
  set (tt := ((px p1 - px p3) * (pz p3 - pz p4) - (pz p1 - pz p3) * (px p3 - px p4)) / denom).
  set (u := ((px p1 - px p3) * (pz p1 - pz p2) - (pz p1 - pz p3) * (px p1 - px p2)) / denom).
  destruct (Qltb EPS tt && Qltb tt (1 - EPS) && Qltb EPS u && Qltb u (1 - EPS)) eqn:Hin;
    [|discriminate].
  intros _.
  apply andb_true_iff in Hin as [Hin Hu2]. apply andb_true_iff in Hin as [Hin Hu1].
  apply andb_true_iff in Hin as [Ht1 Ht2].
  apply Qltb_lt in Ht1, Ht2, Hu1, Hu2.
  exists (P3 (px p1 + tt * (px p2 - px p1)) 0 (pz p1 + tt * (pz p2 - pz p1))), tt, u.
  cbn [px py pz]. repeat split; trivial; try reflexivity.
  - unfold tt, u, denom. field. exact Hden.
  - unfold tt, u, denom. field. exact Hden.
Qed.

Lemma hit_point_on_both_segments_witness :
  exists ip tt u,
    segmentsIntersectionPoint2DWithT (pt 2 (-2)) (pt 2 2) (pt 0 0) (pt 4 0)
    = mkIntersection true (Some ip) (Some tt) /\
    EPS < tt /\ tt < 1 - EPS /\ EPS < u /\ u < 1 - EPS /\
    px ip == px (pt 2 (-2)) + tt * (px (pt 2 2) - px (pt 2 (-2))) /\
    pz ip == pz (pt 2 (-2)) + tt * (pz (pt 2 2) - pz (pt 2 (-2))) /\
    px ip == px (pt 0 0) + u * (px (pt 4 0) - px (pt 0 0)) /\
    pz ip == pz (pt 0 0) + u * (pz (pt 4 0) - pz (pt 0 0)) /\
    py ip = 0.
Proof.
  apply (hit_point_on_both_segments (pt 2 (-2)) (pt 2 2) (pt 0 0) (pt 4 0)).
  vm_compute. reflexivity.
Defined.

(** When the parameter [t] is 0 or 1 for every nonzero [denom], no hit is
    reported. *)
Lemma hit_false_of_t (p1 p2 p3 p4 : Point3) (v : Q) :
  (v == 0 \/ v == 1) ->
  (~ (px p1 - px p2) * (pz p3 - pz p4) - (pz p1 - pz p2) * (px p3 - px p4) == 0 ->
   ((px p1 - px p3) * (pz p3 - pz p4) - (pz p1 - pz p3) * (px p3 - px p4))
   / ((px p1 - px p2) * (pz p3 - pz p4) - (pz p1 - pz p2) * (px p3 - px p4)) == v) ->
  hit (segmentsIntersectionPoint2DWithT p1 p2 p3 p4) = false.
Proof.
  intros Hv Ht.
  unfold segmentsIntersectionPoint2DWithT. cbv zeta.
  set (denom := (px p1 - px p2) * (pz p3 - pz p4) - (pz p1 - pz p2) * (px p3 - px p4)) in *.
  destruct (Qltb (Qabs denom) EPS) eqn:Hden; [reflexivity|].
  apply denom_nonzero in Hden. specialize (Ht Hden).
  set (tt := ((px p1 - px p3) * (pz p3 - pz p4) - (pz p1 - pz p3) * (px p3 - px p4)) / denom) in *.
  assert (Hout : Qltb EPS tt && Qltb tt (1 - EPS) = false).
  { destruct Hv as [Hv|Hv]; rewrite Hv in Ht.
    - rewrite (Qltb_comp EPS EPS tt 0) by (trivial; reflexivity). reflexivity.
    - rewrite (Qltb_comp tt 1 (1 - EPS) (1 - EPS)) by (trivial; reflexivity).
      apply andb_false_r. }
  rewrite Hout. reflexivity.
Qed.

(** X5: two segments that share an endpoint (in the plane) never report a
    hit, whichever ends coincide: touching at a vertex is not a crossing. *)
Theorem shared_endpoint_is_no_hit (p1 p2 p3 p4 : Point3) :
  (px p1 == px p3 /\ pz p1 == pz p3) \/
  (px p1 == px p4 /\ pz p1 == pz p4) \/
  (px p2 == px p3 /\ pz p2 == pz p3) \/
  (px p2 == px p4 /\ pz p2 == pz p4) ->
  hit (segmentsIntersectionPoint2DWithT p1 p2 p3 p4) = false.
Proof.
  intros [[Ex Ez]|[[Ex Ez]|[[Ex Ez]|[Ex Ez]]]].
  - apply hit_false_of_t with (v := 0); [now left|].
    intro Hden. rewrite Ex, Ez. field. now rewrite Ex, Ez in Hden.
  - apply hit_false_of_t with (v := 0); [now left|].
    intro Hden. rewrite Ex, Ez. field. now rewrite Ex, Ez in Hden.
  - apply hit_false_of_t with (v := 1); [now right|].
    intro Hden. rewrite <- Ex, <- Ez. field. now rewrite <- Ex, <- Ez in Hden.
  - apply hit_false_of_t with (v := 1); [now right|].
    intro Hden. rewrite <- Ex, <- Ez. field. now rewrite <- Ex, <- Ez in Hden.
Qed.

Lemma shared_endpoint_is_no_hit_witness :
  hit (segmentsIntersectionPoint2DWithT (pt 4 0) (pt 4 4) (pt 0 0) (pt 4 0)) = false.
Proof.
  apply shared_endpoint_is_no_hit. right. left. split; reflexivity.
Defined.

(** The hit flag, as one boolean formula. *)
Lemma hit_formula (p1 p2 p3 p4 : Point3) :
  hit (segmentsIntersectionPoint2DWithT p1 p2 p3 p4)
  = negb (Qltb (Qabs ((px p1 - px p2) * (pz p3 - pz p4)
                      - (pz p1 - pz p2) * (px p3 - px p4))) EPS)
    && (Qltb EPS
          (((px p1 - px p3) * (pz p3 - pz p4) - (pz p1 - pz p3) * (px p3 - px p4))
           / ((px p1 - px p2) * (pz p3 - pz p4) - (pz p1 - pz p2) * (px p3 - px p4)))
        && Qltb
             (((px p1 - px p3) * (pz p3 - pz p4) - (pz p1 - pz p3) * (px p3 - px p4))
              / ((px p1 - px p2) * (pz p3 - pz p4) - (pz p1 - pz p2) * (px p3 - px p4)))
             (1 - EPS)
        && Qltb EPS
             (((px p1 - px p3) * (pz p1 - pz p2) - (pz p1 - pz p3) * (px p1 - px p2))
              / ((px p1 - px p2) * (pz p3 - pz p4) - (pz p1 - pz p2) * (px p3 - px p4)))
        && Qltb
             (((px p1 - px p3) * (pz p1 - pz p2) - (pz p1 - pz p3) * (px p1 - px p2))
              / ((px p1 - px p2) * (pz p3 - pz p4) - (pz p1 - pz p2) * (px p3 - px p4)))
             (1 - EPS)).
Proof.
  unfold segmentsIntersectionPoint2DWithT. cbv zeta.
  destruct (Qltb (Qabs _) EPS); [reflexivity|].
  destruct (_ && _ && _ && _); reflexivity.
Qed.

(** X6: the hit flag does not depend on which of the two segments is given
    first. *)
Theorem hit_symmetric (p1 p2 p3 p4 : Point3) :
  hit (segmentsIntersectionPoint2DWithT p1 p2 p3 p4)
  = hit (segmentsIntersectionPoint2DWithT p3 p4 p1 p2).
Proof.
  rewrite !hit_formula.
  set (denom := (px p1 - px p2) * (pz p3 - pz p4) - (pz p1 - pz p2) * (px p3 - px p4)).
  set (denom' := (px p3 - px p4) * (pz p1 - pz p2) - (pz p3 - pz p4) * (px p1 - px p2)).
  assert (Eden : denom' == - denom) by (unfold denom, denom'; ring).
  rewrite (Qltb_comp (Qabs denom') (Qabs denom) EPS EPS)
    by (try reflexivity; rewrite Eden; apply Qabs_opp).
  destruct (Qltb (Qabs denom) EPS) eqn:Hden; [reflexivity|].
  apply denom_nonzero in Hden.
  assert (Hden' : ~ denom' == 0) by (rewrite Eden; intro H; apply Hden; Lqa.lra).
  cbn [negb andb].
  set (tt := ((px p1 - px p3) * (pz p3 - pz p4) - (pz p1 - pz p3) * (px p3 - px p4)) / denom).
  set (u := ((px p1 - px p3) * (pz p1 - pz p2) - (pz p1 - pz p3) * (px p1 - px p2)) / denom).
  set (tt' := ((px p3 - px p1) * (pz p1 - pz p2) - (pz p3 - pz p1) * (px p1 - px p2)) / denom').
  set (u' := ((px p3 - px p1) * (pz p3 - pz p4) - (pz p3 - pz p1) * (px p3 - px p4)) / denom').
  assert (Et : tt' == u) by (unfold tt', u, denom, denom' in *; field; auto).
  assert (Eu : u' == tt) by (unfold u', tt, denom, denom' in *; field; auto).
  rewrite (Qltb_comp EPS EPS tt' u), (Qltb_comp tt' u (1 - EPS) (1 - EPS)),
    (Qltb_comp EPS EPS u' tt), (Qltb_comp u' tt (1 - EPS) (1 - EPS))
    by (trivial; reflexivity).
  destruct (Qltb EPS tt), (Qltb tt (1 - EPS)), (Qltb EPS u), (Qltb u (1 - EPS));
    reflexivity.
Qed.

(** ** Earliest crossing *)

Lemma hitLoop_snoc b p l seg :
  hitLoop b p (l ++ [seg]) = hitStep b p (hitLoop b p l) seg.
Proof. unfold hitLoop. now rewrite fold_left_app. Qed.

Lemma crossingAt_miss b p seg :
  hit (segmentsIntersectionPoint2DWithT b p (start seg) (end_ seg)) = false ->
  crossingAt b p seg = None.
Proof. unfold crossingAt. cbv zeta. now intros ->. Qed.

(** What the hit loop of [handleClick] holds at its end. *)
Lemma hitLoop_spec b p l :
  match hitLoop b p l with
  | (None, None) => forall seg, In seg l -> crossingAt b p seg = None
  | (Some bestHit, Some bestSeg) =>
      exists before after ht,
        l = before ++ bestSeg :: after /\
        bestHit = segmentsIntersectionPoint2DWithT b p (start bestSeg) (end_ bestSeg) /\
        hit bestHit = true /\
        t bestHit = Some ht /\
        (forall seg t', In seg before -> crossingAt b p seg = Some t' -> ht < t') /\
        (forall seg t', In seg after -> crossingAt b p seg = Some t' -> ht <= t')
  | _ => False
  end.
Proof.
  induction l as [|x l IH] using rev_ind.
  - cbn. intros seg [].
  - rewrite hitLoop_snoc. unfold hitStep.
    destruct (hit (segmentsIntersectionPoint2DWithT b p (start x) (end_ x))) eqn:Hx.
    + destruct (hit_shape _ _ _ _ Hx) as (hp & rt & Ex).
      assert (Cx : crossingAt b p x = Some rt)
        by (unfold crossingAt; cbv zeta; now rewrite Ex).
      rewrite Ex. cbn [hit point t].
      destruct (hitLoop b p l) as [[bestHit|] [bestSeg|]]; cbn [fst]; try contradiction.
      * destruct IH as (before & after & ht & -> & Ebest & Hhit & Ht & Hbefore & Hafter).
        rewrite Ht.
        destruct (Qltb rt ht) eqn:Hlt.
        -- apply Qltb_lt in Hlt.
           exists (before ++ bestSeg :: after), [], rt.
           repeat split; trivial; [now rewrite Ex | | intros seg t' []].
           intros seg t' Hin Hc.
           apply in_app_or in Hin as [Hin|[<-|Hin]].
           ++ eapply Qlt_trans; [exact Hlt | now apply (Hbefore seg)].
           ++ unfold crossingAt in Hc. cbv zeta in Hc.
              rewrite <- Ebest, Hhit, Ht in Hc. now injection Hc as <-.
           ++ eapply Qlt_le_trans; [exact Hlt | now apply (Hafter seg)].
        -- assert (Hge : ht <= rt).
           { apply Qnot_lt_le. intro H. apply Qltb_lt in H. congruence. }
           exists before, (after ++ [x]), ht.
           repeat split; trivial; [now rewrite <- app_assoc|].
           intros seg t' Hin Hc.
           apply in_app_or in Hin as [Hin|[<-|[]]]; [now apply (Hafter seg)|].
           rewrite Cx in Hc. now injection Hc as <-.
      * exists l, [], rt.
        repeat split; trivial; [now rewrite Ex | | intros seg t' []].
        intros seg t' Hin Hc. rewrite (IH seg Hin) in Hc. discriminate.
    + apply crossingAt_miss in Hx.
      destruct (hitLoop b p l) as [[bestHit|] [bestSeg|]]; try contradiction.
      * destruct IH as (before & after & ht & -> & Ebest & Hhit & Ht & Hbefore & Hafter).
        exists before, (after ++ [x]), ht.
        repeat split; trivial; [now rewrite <- app_assoc|].
        intros seg t' Hin Hc.
        apply in_app_or in Hin as [Hin|[<-|[]]]; [now apply (Hafter seg) | congruence].
      * intros seg Hin. apply in_app_or in Hin as [Hin|[<-|[]]]; auto.
Qed.

(** X7: when the candidate wall from [b] to [p] properly crosses some wall,
    the hit loop of [handleClick] ends on the wall crossed earliest along the
    candidate: every wall before it in the wall set is crossed at a strictly
    larger parameter, and every wall after it at a parameter at least as
    large. *)
Theorem hitLoop_earliest_crossing b p segments' :
  wouldIntersectExistingWalls b p segments' = true ->
  exists bestSeg hp ht before after,
    segments' = before ++ bestSeg :: after /\
    hitLoop b p segments'
    = (Some (mkIntersection true (Some hp) (Some ht)), Some bestSeg) /\
    segmentsIntersectionPoint2DWithT b p (start bestSeg) (end_ bestSeg)
    = mkIntersection true (Some hp) (Some ht) /\
    (forall seg t', In seg before -> crossingAt b p seg = Some t' -> ht < t') /\
    (forall seg t', In seg after -> crossingAt b p seg = Some t' -> ht <= t').
Proof.
  intro Hex.
  destruct (hitLoop_some b p _ Hex) as (bestSeg & hp & ht & _ & Hres & Hloop).
  pose proof (hitLoop_spec b p segments') as Hspec. rewrite Hloop in Hspec.
  destruct Hspec as (before & after & ht' & E & _ & _ & Ht & Hbefore & Hafter).
  cbn [t] in Ht. injection Ht as <-.
  exists bestSeg, hp, ht, before, after. auto.
Qed.

Lemma hitLoop_earliest_crossing_witness :
  exists bestSeg hp ht before after,
    twoFences = before ++ bestSeg :: after /\
    hitLoop (pt 4 0) (pt 0 0) twoFences
    = (Some (mkIntersection true (Some hp) (Some ht)), Some bestSeg) /\
    segmentsIntersectionPoint2DWithT (pt 4 0) (pt 0 0) (start bestSeg) (end_ bestSeg)
    = mkIntersection true (Some hp) (Some ht) /\
    (forall seg t', In seg before -> crossingAt (pt 4 0) (pt 0 0) seg = Some t' -> ht < t') /\
    (forall seg t', In seg after -> crossingAt (pt 4 0) (pt 0 0) seg = Some t' -> ht <= t').
Proof.
  apply (hitLoop_earliest_crossing (pt 4 0) (pt 0 0) twoFences).
  vm_compute. reflexivity.
Defined.

(** ** Touching wall *)

(** What [lastTouching] returns. *)
Lemma lastTouching_spec segments' b :
  match lastTouching segments' b with
  | Some w =>
      exists before after,
        segments' = before ++ w :: after /\
        touches w b = true /\
        forall seg, In seg after -> touches seg b = false
  | None => forall seg, In seg segments' -> touches seg b = false
  end.
Proof.
  unfold lastTouching.
  change (fun seg => startsAt seg b || endsAt seg b) with (fun seg => touches seg b).
  induction segments' as [|x l IH] using rev_ind.
  - cbn. intros seg [].
  - rewrite rev_app_distr. cbn [rev app find].
    destruct (touches x b) eqn:Hx.
    + exists l, []. repeat split; trivial. intros seg [].
    + destruct (find (fun seg => touches seg b) (rev l)) as [w|].
      * destruct IH as (before & after & -> & Hw & Hafter).
        exists before, (after ++ [x]). repeat split; trivial.
        -- now rewrite <- app_assoc.
        -- intros seg Hin. apply in_app_or in Hin as [Hin|[<-|[]]]; auto.
      * intros seg Hin. apply in_app_or in Hin as [Hin|[<-|[]]]; auto.
Qed.

(** X8: [lastTouching] returns the wall added last among those with an end
    at [b]: no wall after it in the wall set touches [b]; it returns nothing
    exactly when no wall touches [b]. *)
Theorem lastTouching_most_recent segments' b :
  match lastTouching segments' b with
  | Some w =>
      exists before after,
        segments' = before ++ w :: after /\
        touches w b = true /\
        forall seg, In seg after -> touches seg b = false
  | None => forall seg, In seg segments' -> touches seg b = false
  end.
Proof. apply lastTouching_spec. Qed.

(** ** Angle *)

Lemma Math_hypot_zero (x z : Q) : x == 0 -> z == 0 -> Math_hypot x z = 0%R.
Proof.
  intros Ex Ez. unfold Math_hypot.
  rewrite (Qeq_eqR (x * x + z * z) 0) by (rewrite Ex, Ez; reflexivity).
  rewrite RMicromega.Q2R_0. apply sqrt_0.
Qed.

(** X9: the angle at a vertex is between 0 and pi, does not depend on the
    order of the two rays, and is 0 when the first ray has no length. *)
Theorem angleAtVertexDot_range_symmetry (a b c : Point3) :
  (0 <= angleAtVertexDot a b c <= PI)%R /\
  angleAtVertexDot a b c = angleAtVertexDot c b a /\
  (px a == px b -> pz a == pz b -> angleAtVertexDot a b c = 0%R).
Proof.
  unfold angleAtVertexDot. cbv zeta.
  set (ux := px a - px b). set (uz := pz a - pz b).
  set (vx := px c - px b). set (vz := pz c - pz b).
  assert (Edot : Q2R (ux * vx + uz * vz) = Q2R (vx * ux + vz * uz))
    by (apply Qeq_eqR; ring).
  split; [|split].
  - destruct (Req_dec_T (Math_hypot ux uz) 0); [pose proof PI_RGT_0; Lra.lra|].
    destruct (Req_dec_T (Math_hypot vx vz) 0); [pose proof PI_RGT_0; Lra.lra|].
    apply acos_bound.
  - destruct (Req_dec_T (Math_hypot ux uz) 0), (Req_dec_T (Math_hypot vx vz) 0);
      try reflexivity.
    rewrite Edot, (Rmult_comm (Math_hypot ux uz)). reflexivity.
  - intros Ex Ez.
    rewrite (Math_hypot_zero ux uz) by (unfold ux, uz; Lqa.lra).
    destruct (Req_dec_T 0 0) as [_|H]; [reflexivity | now elim H].
Qed.

(** ** History *)

Lemma snoc_cases {A : Type} (l : list A) : l = [] \/ exists h w, l = h ++ [w].
Proof.
  destruct l as [|x l] using rev_ind; [now left | right; eauto].
Qed.

Lemma handleUndo_snoc v h w :
  history v = h ++ [w] ->
  handleUndo v
  = mkViewport (isDrawingMode v) (snapGridEnabled v) w h (segments v :: redoStack v) None.
Proof.
  intro E. unfold handleUndo. rewrite E, last_last, removelast_last.
  destruct (h ++ [w]) eqn:E'; [destruct h; discriminate | reflexivity].
Qed.

Lemma handleRedo_cons v next rest :
  redoStack v = next :: rest ->
  handleRedo v
  = mkViewport (isDrawingMode v) (snapGridEnabled v) next (history v ++ [segments v])
      rest None.
Proof. intro E. unfold handleRedo. now rewrite E. Qed.

(** X10: [undo ()] and [redo ()] only move the present along the timeline:
    the sequence past, present, future of wall sets is the same before and
    after, so no stored wall set is ever lost or changed by them.  A commit
    keeps the past and the present and replaces the future by the new wall
    set. *)
Theorem undo_redo_keep_timeline (v : Viewport) (next : list Segment) :
  timeline (handleUndo v) = timeline v /\
  timeline (handleRedo v) = timeline v /\
  timeline (pushHistory next v) = history v ++ [segments v; next].
Proof.
  unfold timeline. split; [|split].
  - destruct (snoc_cases (history v)) as [E|(h & w & E)].
    + replace (handleUndo v) with v by (unfold handleUndo; now rewrite E).
      reflexivity.
    + rewrite (handleUndo_snoc v h w E), E. cbn.
      now rewrite <- app_assoc.
  - destruct (redoStack v) as [|n r] eqn:E.
    + replace (handleRedo v) with v by (unfold handleRedo; now rewrite E).
      now rewrite E.
    + rewrite (handleRedo_cons v n r E). cbn. now rewrite <- app_assoc.
  - cbn. now rewrite <- app_assoc.
Qed.

(** [k] undos on a viewport whose undo stack ends with the [k] entries [l]. *)
Lemma undoTimes_spec l : forall v h,
  history v = h ++ l ->
  history (undoTimes (List.length l) v) = h /\
  segments (undoTimes (List.length l) v) :: redoStack (undoTimes (List.length l) v)
  = l ++ segments v :: redoStack v.
Proof.
  induction l as [|w l IH] using rev_ind; intros v h E.
  - cbn. rewrite app_nil_r in E. auto.
  - rewrite length_app, Nat.add_comm. cbn [List.length Nat.add].
    unfold undoTimes. rewrite Nat.iter_succ_r. fold (undoTimes (List.length l) (handleUndo v)).
    rewrite app_assoc in E. rewrite (handleUndo_snoc v (h ++ l) w E).
    destruct (IH (mkViewport (isDrawingMode v) (snapGridEnabled v) w (h ++ l)
                    (segments v :: redoStack v) None) h eq_refl) as [Hh Hs].
    split; [exact Hh|]. rewrite Hs. cbn. now rewrite <- app_assoc.
Qed.

(** [k] redos on a viewport whose redo stack starts with the [k] entries [l]. *)
Lemma redoTimes_spec l : forall v r,
  redoStack v = l ++ r ->
  redoStack (redoTimes (List.length l) v) = r /\
  history (redoTimes (List.length l) v) ++ [segments (redoTimes (List.length l) v)]
  = history v ++ segments v :: l.
Proof.
  induction l as [|n l IH]; intros v r E.
  - cbn. auto.
  - cbn [List.length]. unfold redoTimes. rewrite Nat.iter_succ_r.
    fold (redoTimes (List.length l) (handleRedo v)).
    rewrite (handleRedo_cons v n (l ++ r) E).
    destruct (IH (mkViewport (isDrawingMode v) (snapGridEnabled v) n
                    (history v ++ [segments v]) (l ++ r) None) r eq_refl) as [Hr Hh].
    split; [exact Hr|]. rewrite Hh. cbn. now rewrite <- app_assoc.
Qed.

(** X11: [k] undos in a row take the last [k] wall sets [l] off the undo
    stack: the wall set that was current [k] commits ago is current again,
    and the wall sets passed, the old present included, are on the redo
    stack in time order. *)
Theorem undo_many (v : Viewport) (h l : list (list Segment)) :
  history v = h ++ l ->
  history (undoTimes (List.length l) v) = h /\
  segments (undoTimes (List.length l) v) :: redoStack (undoTimes (List.length l) v)
  = l ++ segments v :: redoStack v.
Proof. apply undoTimes_spec. Qed.

Lemma undo_many_witness :
  history (undoTimes (List.length [wallsA; wallsB]) threeCommits) = [[]] /\
  segments (undoTimes (List.length [wallsA; wallsB]) threeCommits)
  :: redoStack (undoTimes (List.length [wallsA; wallsB]) threeCommits)
  = [wallsA; wallsB] ++ segments threeCommits :: redoStack threeCommits.
Proof.
  apply (undo_many threeCommits [[]] [wallsA; wallsB]). reflexivity.
Defined.

(** X12: undoing [k] times and then redoing [k] times, with at least [k]
    entries on the undo stack, gives back the wall set, the undo stack and
    the redo stack (whatever the redo stack held). *)
Theorem undo_then_redo_many (v : Viewport) (k : nat) :
  (k <= List.length (history v))%nat ->
  segments (redoTimes k (undoTimes k v)) = segments v /\
  history (redoTimes k (undoTimes k v)) = history v /\
  redoStack (redoTimes k (undoTimes k v)) = redoStack v.
Proof.
  intro Hk.
  set (n := (List.length (history v) - k)%nat).
  assert (E : history v = firstn n (history v) ++ skipn n (history v))
    by (symmetry; apply firstn_skipn).
  assert (Hlen : List.length (skipn n (history v)) = k)
    by (rewrite length_skipn; unfold n; lia).
  destruct (undoTimes_spec (skipn n (history v)) v (firstn n (history v)) E) as [Hh Hs].
  rewrite Hlen in Hh, Hs.
  remember (undoTimes k v) as u eqn:Eu.
  destruct (skipn n (history v)) as [|w l] eqn:Eskip.
  - cbn in Hlen. subst k. cbn in Eu. subst u. cbn. auto.
  - cbn [app] in Hs. injection Hs as Hseg Hredo.
    assert (Hl : List.length (l ++ [segments v]) = k)
      by (rewrite length_app; cbn in *; lia).
    destruct (redoTimes_spec (l ++ [segments v]) u (redoStack v)) as [Hr Hhist].
    { rewrite Hredo, <- app_assoc. reflexivity. }
    rewrite Hl in Hr, Hhist. rewrite Hh, Hseg in Hhist.
    replace (firstn n (history v) ++ w :: l ++ [segments v])
      with ((firstn n (history v) ++ w :: l) ++ [segments v]) in Hhist
      by (now rewrite <- app_assoc).
    apply app_inj_tail in Hhist as [Hhist Hsegs].
    split; [exact Hsegs|]. split; [|exact Hr].
    rewrite Hhist. symmetry. exact E.
Qed.

Lemma undo_then_redo_many_witness :
  segments (redoTimes 2 (undoTimes 2 threeCommits)) = segments threeCommits /\
  history (redoTimes 2 (undoTimes 2 threeCommits)) = history threeCommits /\
  redoStack (redoTimes 2 (undoTimes 2 threeCommits)) = redoStack threeCommits.
Proof.
  apply (undo_then_redo_many threeCommits 2). cbn. lia.
Defined.

(** X13: redoing [k] times and then undoing [k] times, with at least [k]
    entries on the redo stack, gives back the wall set, the undo stack and
    the redo stack. *)
Theorem redo_then_undo_many (v : Viewport) (k : nat) :
  (k <= List.length (redoStack v))%nat ->
  segments (undoTimes k (redoTimes k v)) = segments v /\
  history (undoTimes k (redoTimes k v)) = history v /\
  redoStack (undoTimes k (redoTimes k v)) = redoStack v.
Proof.
  intro Hk.
  assert (E : redoStack v = firstn k (redoStack v) ++ skipn k (redoStack v))
    by (symmetry; apply firstn_skipn).
  assert (Hlen : List.length (firstn k (redoStack v)) = k)
    by (rewrite length_firstn; lia).
  destruct (redoTimes_spec (firstn k (redoStack v)) v (skipn k (redoStack v)) E)
    as [Hr Hh].
  rewrite Hlen in Hr, Hh.
  remember (redoTimes k v) as u eqn:Eu.
  destruct (snoc_cases (segments v :: firstn k (redoStack v))) as [Enil|(l2 & x & El)];
    [discriminate|].
  rewrite El, app_assoc in Hh. apply app_inj_tail in Hh as [Hhist Hseg].
  assert (Hl2 : List.length l2 = k).
  { apply (f_equal (@List.length _)) in El. rewrite length_app in El.
    cbn in El. lia. }
  destruct (undoTimes_spec l2 u (history v) Hhist) as [Hh' Hs'].
  rewrite Hl2 in Hh', Hs'.
  rewrite Hseg, Hr in Hs'.
  replace (l2 ++ x :: skipn k (redoStack v))
    with ((l2 ++ [x]) ++ skipn k (redoStack v)) in Hs' by (now rewrite <- app_assoc).
  rewrite <- El in Hs'. cbn [app] in Hs'. rewrite <- E in Hs'.
  injection Hs' as Hs Hredo. auto.
Qed.

Lemma redo_then_undo_many_witness :
  segments (undoTimes 1 (redoTimes 1 oneWallViewport)) = segments oneWallViewport /\
  history (undoTimes 1 (redoTimes 1 oneWallViewport)) = history oneWallViewport /\
  redoStack (undoTimes 1 (redoTimes 1 oneWallViewport)) = redoStack oneWallViewport.
Proof.
  apply (redo_then_undo_many oneWallViewport 1). cbn. lia.
Defined.

(** ** Delete *)

(** X14: the Delete button with a non-empty selected id removes exactly the
    walls with that id and keeps the others in order, commits (one push on
    the undo stack, redo stack emptied), clears the selection, and one
    [undo ()] brings the wall set back; with unique ids and a selected wall
    of the wall set, exactly one wall goes. *)
Theorem handleDeleteSelected_removes_and_commits (v : Viewport) (i : string) :
  selectedId v = Some i ->
  i <> "" ->
  segments (handleDeleteSelected v)
  = filter (fun s => negb (String.eqb (id s) i)) (segments v) /\
  (forall s, In s (segments (handleDeleteSelected v)) <-> In s (segments v) /\ id s <> i) /\
  history (handleDeleteSelected v) = history v ++ [segments v] /\
  redoStack (handleDeleteSelected v) = [] /\
  selectedId (handleDeleteSelected v) = None /\
  segments (handleUndo (handleDeleteSelected v)) = segments v /\
  (NoDup (map id (segments v)) ->
   In i (map id (segments v)) ->
   S (List.length (segments (handleDeleteSelected v))) = List.length (segments v)).
Proof.
  intros Hsel Hne.
  assert (E : handleDeleteSelected v
              = setSelectedId None
                  (pushHistory (filter (fun s => negb (String.eqb (id s) i)) (segments v)) v)).
  { unfold handleDeleteSelected. rewrite Hsel. unfold falsyId.
    destruct (String.eqb_spec i ""); [contradiction | reflexivity]. }
  rewrite E. cbn [setSelectedId pushHistory segments history redoStack selectedId].
  split; [reflexivity|]. split; [|split; [reflexivity|]].
  2: split; [reflexivity|]. 2: split; [reflexivity|]. 2: split.
  - intro s. rewrite filter_In, negb_true_iff, String.eqb_neq. reflexivity.
  - erewrite handleUndo_snoc by reflexivity. reflexivity.
  - intros Hnodup Hin. clear E Hsel.
    induction (segments v) as [|s l IH]; [contradiction|].
    cbn [map] in Hnodup, Hin. apply NoDup_cons_iff in Hnodup as [Hnotin Hnodup].
    cbn [filter]. destruct (String.eqb_spec (id s) i) as [Es|Es]; cbn [negb List.length].
    + rewrite filter_unknown_id; [reflexivity|].
      intros s' Hs' Eid. apply Hnotin. rewrite Es, <- Eid. now apply in_map.
    + f_equal. apply IH; [exact Hnodup|]. destruct Hin as [Hin|Hin]; [contradiction | exact Hin].
Qed.

Lemma handleDeleteSelected_removes_and_commits_witness :
  segments (handleDeleteSelected (setSelectedId (Some "w") oneWallViewport))
  = filter (fun s => negb (String.eqb (id s) "w"))
      (segments (setSelectedId (Some "w") oneWallViewport)) /\
  (forall s, In s (segments (handleDeleteSelected (setSelectedId (Some "w") oneWallViewport)))
             <-> In s (segments (setSelectedId (Some "w") oneWallViewport)) /\ id s <> "w") /\
  history (handleDeleteSelected (setSelectedId (Some "w") oneWallViewport))
  = history (setSelectedId (Some "w") oneWallViewport)
    ++ [segments (setSelectedId (Some "w") oneWallViewport)] /\
  redoStack (handleDeleteSelected (setSelectedId (Some "w") oneWallViewport)) = [] /\
  selectedId (handleDeleteSelected (setSelectedId (Some "w") oneWallViewport)) = None /\
  segments (handleUndo (handleDeleteSelected (setSelectedId (Some "w") oneWallViewport)))
  = segments (setSelectedId (Some "w") oneWallViewport) /\
  (NoDup (map id (segments (setSelectedId (Some "w") oneWallViewport))) ->
   In "w" (map id (segments (setSelectedId (Some "w") oneWallViewport))) ->
   S (List.length (segments (handleDeleteSelected (setSelectedId (Some "w") oneWallViewport))))
   = List.length (segments (setSelectedId (Some "w") oneWallViewport))).
Proof.
  apply (handleDeleteSelected_removes_and_commits
           (setSelectedId (Some "w") oneWallViewport) "w").
  - reflexivity.
  - discriminate.
Defined.

(** ** Outcomes of a click *)

(** The four outcomes of [handleClick]: nothing, anchor, split, append. *)
Lemma handleClick_cases raw u1 u2 u3 a :
  handleClick raw u1 u2 u3 a = a \/
  (exists p,
     isDrawingMode (viewport a) = true /\
     isDrawing (plane a) = false /\
     applySnap (snapGridEnabled (viewport a)) (snapPointsOf (segments (viewport a))) raw
     = Some p /\
     handleClick raw u1 u2 u3 a
     = mkApp (setSelectedId None (viewport a))
         (mkPlane true (Some p) (Some p) None false true)) \/
  (exists b p bestSeg hp ht,
     isDrawingMode (viewport a) = true /\
     isDrawing (plane a) = true /\
     startPoint (plane a) = Some b /\
     applySnap (snapGridEnabled (viewport a)) (snapPointsOf (segments (viewport a))) raw
     = Some p /\
     In bestSeg (segments (viewport a)) /\
     segmentsIntersectionPoint2DWithT b p (start bestSeg) (end_ bestSeg)
     = mkIntersection true (Some hp) (Some ht) /\
     handleClick raw u1 u2 u3 a
     = mkApp
         (pushHistory
            (splitAndInsert (segments (viewport a)) bestSeg (snapToGrid hp) b u1 u2 u3)
            (viewport a))
         resetDrawing) \/
  (exists b p,
     isDrawingMode (viewport a) = true /\
     isDrawing (plane a) = true /\
     startPoint (plane a) = Some b /\
     applySnap (snapGridEnabled (viewport a)) (snapPointsOf (segments (viewport a))) raw
     = Some p /\
     wouldIntersectExistingWalls b p (segments (viewport a)) = false /\
     canPlaceWall (plane a) = true /\
     handleClick raw u1 u2 u3 a
     = mkApp (pushHistory (segments (viewport a) ++ [mkSegment u1 b p]) (viewport a))
         resetDrawing).
Proof.
  unfold handleClick. cbv zeta.
  destruct (isDrawingMode (viewport a)) eqn:Hmode; cbn [negb]; [|now left].
  destruct (applySnap _ _ raw) as [p|] eqn:Hsnap; [|now left].
  destruct (isDrawing (plane a)) eqn:Hdraw; cbn [negb];
    [|right; left; exists p; auto].
  destruct (startPoint (plane a)) as [b|] eqn:Hstart; [|now left].
  destruct (wouldIntersectExistingWalls b p (segments (viewport a))) eqn:Hex.
  - destruct (hitLoop_some b p _ Hex) as (bestSeg & hp & ht & Hin & Hres & Hloop).
    rewrite Hloop. cbn [point].
    right. right. left. exists b, p, bestSeg, hp, ht. auto 10.
  - rewrite (hitLoop_none b p _ Hex).
    destruct (canPlaceWall (plane a)) eqn:Hgate; cbn [negb]; [|now left].
    right. right. right. exists b, p. auto 10.
Qed.

(** The outcomes of [handlePointerMove]: nothing, or a new current point and
    new flags on the same anchor. *)
Lemma handlePointerMove_cases raw a :
  handlePointerMove raw a = a \/
  (exists b p angle blocked,
     isDrawingMode (viewport a) = true /\
     isDrawing (plane a) = true /\
     startPoint (plane a) = Some b /\
     applySnap (snapGridEnabled (viewport a)) (snapPointsOf (segments (viewport a))) raw
     = Some p /\
     handlePointerMove raw a
     = mkApp (viewport a) (mkPlane true (Some b) (Some p) angle blocked (negb blocked))) \/
  (exists p,
     isDrawingMode (viewport a) = true /\
     isDrawing (plane a) = true /\
     startPoint (plane a) = None /\
     handlePointerMove raw a
     = mkApp (viewport a)
         (mkPlane true None (Some p) (previewAngle (plane a)) (previewBlocked (plane a))
            (canPlaceWall (plane a)))).
Proof.
  unfold handlePointerMove. cbv zeta.
  destruct (isDrawingMode (viewport a)) eqn:Hmode; cbn [negb orb]; [|now left].
  destruct (isDrawing (plane a)) eqn:Hdraw; cbn [negb]; [|now left].
  destruct (applySnap _ _ raw) as [p|] eqn:Hsnap; [|now left].
  destruct (startPoint (plane a)) as [b|] eqn:Hstart.
  - right. left. eexists b, p, _, _. repeat split.
  - right. right. exists p. repeat split.
Qed.

(** ** Invariants of reachable states *)

Lemma run_preserves (P : App -> Prop) (events : list Event) :
  (forall a e, In e events -> P a -> P (step a e)) ->
  forall a, P a -> P (run events a).
Proof.
  induction events as [|e events IH]; intros Hstep a Ha; [exact Ha|].
  cbn [run fold_left]. apply IH.
  - intros a' e' He'. apply Hstep. now right.
  - apply Hstep; [now left | exact Ha].
Qed.

Lemma handleUndo_mode v : isDrawingMode (handleUndo v) = isDrawingMode v.
Proof. unfold handleUndo. now destruct (history v). Qed.

Lemma handleRedo_mode v : isDrawingMode (handleRedo v) = isDrawingMode v.
Proof. unfold handleRedo. now destruct (redoStack v). Qed.

Lemma handleDeleteSelected_mode v :
  isDrawingMode (handleDeleteSelected v) = isDrawingMode v.
Proof.
  unfold handleDeleteSelected. destruct (selectedId v); [|reflexivity].
  now destruct (falsyId _).
Qed.

Lemma wallOnClick_mode s v : isDrawingMode (wallOnClick s v) = isDrawingMode v.
Proof. unfold wallOnClick. destruct (isDrawingMode v) eqn:E; exact E. Qed.

Lemma sessionInvariant_onViewport f a :
  (forall v, isDrawingMode (f v) = isDrawingMode v) ->
  sessionInvariant a -> sessionInvariant (onViewport f a).
Proof.
  intros Hf Ha. unfold sessionInvariant, onViewport in *. cbn [plane viewport].
  destruct (isDrawing (plane a)); [|exact Ha]. now rewrite Hf.
Qed.

Lemma step_sessionInvariant a e : sessionInvariant a -> sessionInvariant (step a e).
Proof.
  intro Ha. destruct e; cbn [step].
  - unfold sessionInvariant, onViewport in *. cbn.
    destruct (isDrawing (plane a)); [|exact Ha]. split; [reflexivity | apply Ha].
  - unfold stopDrawing. destruct (isDrawingMode (viewport a)); [reflexivity | exact Ha].
  - now apply sessionInvariant_onViewport.
  - apply sessionInvariant_onViewport; [apply handleUndo_mode | exact Ha].
  - apply sessionInvariant_onViewport; [apply handleRedo_mode | exact Ha].
  - apply sessionInvariant_onViewport; [apply handleDeleteSelected_mode | exact Ha].
  - destruct (nth_error _ i); [|exact Ha].
    apply sessionInvariant_onViewport; [apply wallOnClick_mode | exact Ha].
  - destruct (handleClick_cases raw u1 u2 u3 a)
      as [E|[(p & Hm & _ & _ & E)|[(b & p & s & hp & ht & _ & _ & _ & _ & _ & _ & E)
                                  |(b & p & _ & _ & _ & _ & _ & _ & E)]]];
      rewrite E; try exact Ha; try reflexivity.
    split; [exact Hm | exists p, p; split; reflexivity].
  - destruct (handlePointerMove_cases raw a)
      as [E|[(b & p & angle & blocked & Hm & _ & _ & _ & E)|(p & _ & Hd & Hs & _)]];
      [now rewrite E | rewrite E; split; [exact Hm | exists b, p; split; reflexivity] |].
    unfold sessionInvariant in Ha. rewrite Hd, Hs in Ha.
    destruct Ha as (_ & b & c & Hb & _). discriminate.
Qed.

(** X15: in every state reached from the initial one by any sequence of
    events, the session is either idle with every field cleared (no anchor,
    no current point, no preview angle, not blocked), or drawing, and then
    draw mode is on and the anchor and the current point are present; so
    outside draw mode the session is always idle. *)
Theorem session_is_idle_or_anchored (events : list Event) :
  sessionInvariant (run events initApp) /\
  (isDrawingMode (viewport (run events initApp)) = false ->
   plane (run events initApp) = resetDrawing).
Proof.
  assert (H : sessionInvariant (run events initApp)).
  { apply run_preserves; [|reflexivity].
    intros a e _. apply step_sessionInvariant. }
  split; [exact H|]. intro Hmode.
  unfold sessionInvariant in H. destruct (isDrawing _); [|exact H].
  destruct H as [H _]. congruence.
Qed.

(** X16: from every reachable state, leaving draw mode puts the session
    back to idle with every field cleared, turns draw mode off and keeps wall
    set, stacks, grid switch and selection; leaving again changes nothing. *)
Theorem stopDrawing_resets_session (events : list Event) :
  stopDrawing (run events initApp)
  = mkApp (setIsDrawingMode false (viewport (run events initApp))) resetDrawing /\
  stopDrawing (stopDrawing (run events initApp)) = stopDrawing (run events initApp).
Proof.
  assert (H : sessionInvariant (run events initApp)).
  { apply run_preserves; [|reflexivity].
    intros a e _. apply step_sessionInvariant. }
  revert H. generalize (run events initApp). intros [v d] H.
  unfold stopDrawing, sessionInvariant in *. cbn [viewport plane] in *.
  destruct (isDrawingMode v) eqn:Hmode.
  - split; reflexivity.
  - cbn [viewport]. rewrite Hmode.
    destruct (isDrawing d); [destruct H; congruence|].
    split; [|reflexivity]. subst d. f_equal.
    destruct v. cbn in Hmode. subst. reflexivity.
Qed.

(** ** Stored wall sets *)

Lemma wallSets_handleUndo v ws :
  In ws (wallSets (handleUndo v)) -> In ws (wallSets v).
Proof.
  unfold wallSets.
  destruct (snoc_cases (history v)) as [E|(h & w & E)].
  - replace (handleUndo v) with v by (unfold handleUndo; now rewrite E). trivial.
  - rewrite (handleUndo_snoc v h w E), E. cbn [segments history redoStack].
    intros [<-|Hin].
    + right. apply in_or_app. left. apply in_or_app. right. now left.
    + apply in_app_or in Hin as [Hin|[<-|Hin]].
      * right. apply in_or_app. left. apply in_or_app. now left.
      * now left.
      * right. apply in_or_app. now right.
Qed.

Lemma wallSets_handleRedo v ws :
  In ws (wallSets (handleRedo v)) -> In ws (wallSets v).
Proof.
  unfold wallSets.
  destruct (redoStack v) as [|n r] eqn:E.
  - replace (handleRedo v) with v by (unfold handleRedo; now rewrite E).
    now rewrite E.
  - rewrite (handleRedo_cons v n r E). cbn [segments history redoStack].
    intros [<-|Hin].
    + right. apply in_or_app. right. now left.
    + apply in_app_or in Hin as [Hin|Hin].
      * apply in_app_or in Hin as [Hin|[<-|[]]]; [|now left].
        right. apply in_or_app. now left.
      * right. apply in_or_app. right. now right.
Qed.

Lemma wallSets_pushHistory next v ws :
  In ws (wallSets (pushHistory next v)) -> ws = next \/ In ws (wallSets v).
Proof.
  unfold wallSets. cbn [pushHistory segments history redoStack].
  rewrite app_nil_r. intros [<-|Hin]; [now left|]. right.
  apply in_app_or in Hin as [Hin|[<-|[]]]; [|now left].
  right. apply in_or_app. now left.
Qed.

(** The wall sets stored after an event other than a plane click. *)
Lemma wallSets_step_other a e ws :
  eventUuids e = [] ->
  In ws (wallSets (viewport (step a e))) ->
  In ws (wallSets (viewport a)) \/
  exists i, ws = filter (fun s => negb (String.eqb (id s) i)) (segments (viewport a)).
Proof.
  intros He Hin. destruct e; cbn [step] in Hin; try discriminate He.
  - left. exact Hin.
  - left. unfold stopDrawing in Hin.
    destruct (isDrawingMode (viewport a)); exact Hin.
  - left. exact Hin.
  - left. now apply wallSets_handleUndo.
  - left. now apply wallSets_handleRedo.
  - unfold onViewport, handleDeleteSelected in Hin. cbn [viewport] in Hin.
    destruct (selectedId (viewport a)) as [i|]; [|now left].
    destruct (falsyId (Some i)); [now left|].
    apply (wallSets_pushHistory _ (viewport a)) in Hin as [->|Hin]; [|now left].
    right. now exists i.
  - left. destruct (nth_error _ i); [|exact Hin].
    unfold onViewport, wallOnClick in Hin. cbn [viewport] in Hin.
    destruct (isDrawingMode (viewport a)); exact Hin.
  - left. destruct (handlePointerMove_cases raw a)
      as [E|[(b & p & angle & blocked & _ & _ & _ & _ & E)|(p & _ & _ & _ & E)]];
      now rewrite E in Hin.
Qed.

(** The wall sets stored after a plane click. *)
Lemma wallSets_handleClick raw u1 u2 u3 a ws :
  In ws (wallSets (viewport (handleClick raw u1 u2 u3 a))) ->
  In ws (wallSets (viewport a)) \/
  (exists b bestSeg hp,
     startPoint (plane a) = Some b /\
     In bestSeg (segments (viewport a)) /\
     ws = splitAndInsert (segments (viewport a)) bestSeg (snapToGrid hp) b u1 u2 u3) \/
  (exists b p,
     startPoint (plane a) = Some b /\
     applySnap (snapGridEnabled (viewport a)) (snapPointsOf (segments (viewport a))) raw
     = Some p /\
     ws = segments (viewport a) ++ [mkSegment u1 b p]).
Proof.
  intro Hin.
  destruct (handleClick_cases raw u1 u2 u3 a)
    as [E|[(p & _ & _ & _ & E)|[(b & p & s & hp & ht & _ & _ & Hb & _ & Hs & _ & E)
                               |(b & p & _ & _ & Hb & Hp & _ & _ & E)]]];
    rewrite E in Hin; cbn [viewport] in Hin.
  - now left.
  - now left.
  - apply wallSets_pushHistory in Hin as [->|Hin]; [|now left].
    right. left. exists b, s, hp. auto.
  - apply wallSets_pushHistory in Hin as [->|Hin]; [|now left].
    right. right. exists b, p. auto.
Qed.

Lemma splitAndInsert_In segments' bestSeg X S u1 u2 u3 s :
  In s (splitAndInsert segments' bestSeg X S u1 u2 u3) ->
  In s segments' \/
  s = mkSegment u2 (start bestSeg) X \/
  s = mkSegment u3 X (end_ bestSeg) \/
  s = mkSegment u1 S X.
Proof.
  unfold splitAndInsert. cbv zeta. intro Hin.
  apply in_app_or in Hin as [Hin|[<-|[]]]; [|auto].
  apply in_flat_map in Hin as (s0 & Hs0 & Hin).
  destruct (String.eqb (id s0) (id bestSeg)).
  - destruct Hin as [<-|[<-|[]]]; auto.
  - destruct Hin as [<-|[]]. auto.
Qed.

(** ** Grid *)

Lemma snapToGrid_fixed (p : Point3) : onGrid (snapToGrid p).
Proof.
  unfold onGrid, snapToGrid. cbn [px py pz].
  now rewrite !snapCoordinate_again.
Qed.

(** With grid snap on and candidates on the grid, [applySnap] returns a
    point of the grid. *)
Lemma applySnap_onGrid snapPoints raw p :
  (forall q, In q snapPoints -> onGrid q) ->
  applySnap true snapPoints raw = Some p -> onGrid p.
Proof.
  intros Hsps. unfold applySnap.
  destruct raw as [r|]; [|discriminate]. cbv zeta.
  pose proof (snapLoop_spec (snapToGrid r) snapPoints) as Hloop.
  destruct snapPoints as [|sp0 sps].
  - intros [= <-]. apply snapToGrid_fixed.
  - destruct (snapLoop (snapToGrid r) (sp0 :: sps)) as [[c|] m]; cbn [fst].
    + intros [= <-]. apply Hsps, Hloop.
    + intros [= <-]. apply snapToGrid_fixed.
Qed.

Lemma snapPointsOf_onGrid segments' :
  (forall s, In s segments' -> wallOnGrid s) ->
  forall q, In q (snapPointsOf segments') -> onGrid q.
Proof.
  intros Hwalls q Hq. unfold snapPointsOf in Hq.
  apply in_flat_map in Hq as (s & Hs & [<-|[<-|[]]]); now apply Hwalls.
Qed.

Lemma handleUndo_snap v : snapGridEnabled (handleUndo v) = snapGridEnabled v.
Proof. unfold handleUndo. now destruct (history v). Qed.

Lemma handleRedo_snap v : snapGridEnabled (handleRedo v) = snapGridEnabled v.
Proof. unfold handleRedo. now destruct (redoStack v). Qed.

Lemma handleDeleteSelected_snap v :
  snapGridEnabled (handleDeleteSelected v) = snapGridEnabled v.
Proof.
  unfold handleDeleteSelected. destruct (selectedId v); [|reflexivity].
  now destruct (falsyId _).
Qed.

Lemma wallOnClick_snap s v : snapGridEnabled (wallOnClick s v) = snapGridEnabled v.
Proof. unfold wallOnClick. now destruct (isDrawingMode v). Qed.

Lemma step_gridInvariant a e :
  e <> ToggleSnapGrid -> gridInvariant a -> gridInvariant (step a e).
Proof.
  intros He (Hsnap & Hwalls & Hanchor).
  assert (Hsegs : forall s, In s (segments (viewport a)) -> wallOnGrid s)
    by (intros s Hs; apply (Hwalls (segments (viewport a))); [now left | exact Hs]).
  assert (Hsps := snapPointsOf_onGrid _ Hsegs).
  destruct (eventUuids e) as [|u us] eqn:Hu.
  - (* not a plane click *)
    split; [|split].
    + destruct e; try contradiction; try discriminate Hu; cbn [step]; trivial.
      * unfold stopDrawing. now destruct (isDrawingMode (viewport a)).
      * cbn. now rewrite handleUndo_snap.
      * cbn. now rewrite handleRedo_snap.
      * cbn. now rewrite handleDeleteSelected_snap.
      * destruct (nth_error _ i); [|assumption].
        cbn. now rewrite wallOnClick_snap.
      * destruct (handlePointerMove_cases raw a)
          as [E|[(b & p & angle & blocked & _ & _ & _ & _ & E)|(p & _ & _ & _ & E)]];
          now rewrite E.
    + intros ws s Hws Hs.
      apply (wallSets_step_other a e ws Hu) in Hws as [Hws|(i & ->)].
      * now apply (Hwalls ws).
      * apply filter_In in Hs as [Hs _]. now apply Hsegs.
    + intros b Hb.
      destruct e; try contradiction; try discriminate Hu; cbn [step] in Hb;
        try (now apply Hanchor).
      * unfold stopDrawing in Hb.
        destruct (isDrawingMode (viewport a)); [discriminate | now apply Hanchor].
      * destruct (nth_error _ i); now apply Hanchor.
      * destruct (handlePointerMove_cases raw a)
          as [E|[(b' & p & angle & blocked & _ & _ & Hb' & _ & E)|(p & _ & _ & _ & E)]];
          rewrite E in Hb; cbn in Hb; try discriminate; try (now apply Hanchor).
        injection Hb as <-. now apply Hanchor.
  - (* a plane click *)
    destruct e; try discriminate Hu. cbn [step]. clear Hu He.
    split; [|split].
    + destruct (handleClick_cases raw u1 u2 u3 a)
        as [E|[(p & _ & _ & _ & E)|[(b & p & s & hp & ht & _ & _ & _ & _ & _ & _ & E)
                                   |(b & p & _ & _ & _ & _ & _ & _ & E)]]];
        now rewrite E.
    + intros ws s Hws Hs.
      apply wallSets_handleClick in Hws
        as [Hws|[(b & bestSeg & hp & Hb & Hbest & ->)|(b & p & Hb & Hp & ->)]].
      * now apply (Hwalls ws).
      * apply splitAndInsert_In in Hs as [Hs | [-> | [-> | ->]]].
        -- now apply Hsegs.
        -- split; [apply (Hsegs bestSeg Hbest) | apply snapToGrid_fixed].
        -- split; [apply snapToGrid_fixed | apply (Hsegs bestSeg Hbest)].
        -- split; [now apply Hanchor | apply snapToGrid_fixed].
      * apply in_app_or in Hs as [Hs|[<-|[]]]; [now apply Hsegs|].
        split; [now apply Hanchor|]. cbn [end_].
        rewrite Hsnap in Hp. exact (applySnap_onGrid _ raw _ Hsps Hp).
    + intros b Hb.
      destruct (handleClick_cases raw u1 u2 u3 a)
        as [E|[(p & _ & _ & Hp & E)|[(b' & p & s & hp & ht & _ & _ & _ & _ & _ & _ & E)
                                    |(b' & p & _ & _ & _ & _ & _ & _ & E)]]];
        rewrite E in Hb; cbn in Hb; try discriminate.
      * now apply Hanchor.
      * injection Hb as <-. rewrite Hsnap in Hp. exact (applySnap_onGrid _ raw _ Hsps Hp).
Qed.

(** X17: as long as the grid switch is never toggled, every wall of every
    reachable wall set, and of every wall set on the undo and redo stacks,
    has both ends on the grid, and so has the anchor of a wall in
    progress: vertex snap and T-junction splits never leave the grid. *)
Theorem walls_stay_on_grid (events : list Event) :
  Forall (fun e => e <> ToggleSnapGrid) events ->
  gridInvariant (run events initApp).
Proof.
  intro Hno. apply run_preserves.
  - intros a e He. apply step_gridInvariant.
    rewrite Forall_forall in Hno. now apply Hno.
  - split; [reflexivity|]. split.
    + intros ws s [<-|[]] [].
    + intros b Hb. discriminate.
Qed.

Lemma walls_stay_on_grid_witness : gridInvariant (run nearCorner initApp).
Proof.
  apply walls_stay_on_grid. repeat constructor; discriminate.
Defined.

(** ** Unique ids *)

Lemma splitAndInsert_decomposed walls target X S u1 u2 u3 :
  NoDup (map id walls) ->
  In target walls ->
  exists before after,
    walls = before ++ target :: after /\
    splitAndInsert walls target X S u1 u2 u3
    = before
      ++ mkSegment u2 (start target) X :: mkSegment u3 X (end_ target)
         :: after ++ [mkSegment u1 S X].
Proof.
  intros Hnodup Hin.
  destruct (in_split _ _ Hin) as (before & after & ->).
  exists before, after. split; [reflexivity|].
  rewrite map_app in Hnodup. cbn [map] in Hnodup.
  pose proof (NoDup_remove_2 _ _ _ Hnodup) as Hnotin.
  unfold splitAndInsert. cbv zeta.
  rewrite flat_map_app. cbn [flat_map]. rewrite String.eqb_refl.
  rewrite !flat_map_other_ids
    by (intro H; apply Hnotin, in_or_app; auto).
  rewrite <- app_assoc. reflexivity.
Qed.

(** Ids after a split with three fresh, distinct uuids. *)
Lemma splitAndInsert_ids used walls target X S u1 u2 u3 :
  NoDup (map id walls) ->
  incl (map id walls) used ->
  NoDup (used ++ [u1; u2; u3]) ->
  In target walls ->
  NoDup (map id (splitAndInsert walls target X S u1 u2 u3)) /\
  incl (map id (splitAndInsert walls target X S u1 u2 u3)) (used ++ [u1; u2; u3]).
Proof.
  intros Hnodup Hincl Hfresh Hin.
  destruct (splitAndInsert_decomposed walls target X S u1 u2 u3 Hnodup Hin)
    as (before & after & -> & ->).
  rewrite map_app in Hnodup, Hincl. cbn [map] in Hnodup, Hincl.
  rewrite map_app. cbn [map]. rewrite map_app. cbn [map id].
  assert (Hrest : NoDup (map id before ++ map id after))
    by (eapply NoDup_remove_1; exact Hnodup).
  assert (Hold : incl (map id before ++ map id after) used).
  { intros x Hx. apply Hincl. apply in_app_or in Hx as [Hx|Hx];
      apply in_or_app; [now left | right; now right]. }
  assert (Hfresh3 : NoDup [u1; u2; u3]) by (eapply NoDup_app_remove_l; exact Hfresh).
  assert (Hnew : forall x, In x used -> ~ In x [u1; u2; u3]).
  { intros x Hx Hx'. destruct (in_split _ _ Hx) as (l1 & l2 & Eused).
    rewrite Eused, <- app_assoc in Hfresh. cbn [app] in Hfresh.
    apply NoDup_remove_2 in Hfresh. apply Hfresh.
    apply in_or_app. right. apply in_or_app. now right. }
  assert (Hne : u1 <> u2 /\ u1 <> u3 /\ u2 <> u3).
  { inversion_clear Hfresh3 as [|? ? H1 Hfresh2]. inversion_clear Hfresh2 as [|? ? H2 _].
    cbn in H1, H2. intuition. }
  destruct Hne as (H12 & H13 & H23).
  assert (Hold1 : forall u, In u [u1; u2; u3] -> ~ In u (map id before ++ map id after))
    by (intros u Hu Hin'; exact (Hnew u (Hold u Hin') Hu)).
  split.
  - assert (N1 : NoDup (map id before ++ map id after ++ [u1])).
    { rewrite app_assoc.
      apply (NoDup_Add (Add_app u1 (map id before ++ map id after) [])).
      rewrite app_nil_r. split; [exact Hrest | apply Hold1; cbn; auto]. }
    assert (N2 : NoDup (map id before ++ u3 :: map id after ++ [u1])).
    { apply (NoDup_Add (Add_app u3 (map id before) (map id after ++ [u1]))).
      split; [exact N1|]. rewrite app_assoc. intro Hin'.
      apply in_app_or in Hin' as [Hin'|[E|[]]]; [|congruence].
      revert Hin'. apply Hold1. cbn. auto. }
    apply (NoDup_Add (Add_app u2 (map id before) (u3 :: map id after ++ [u1]))).
    split; [exact N2|]. intro Hin'.
    apply in_app_or in Hin' as [Hin'|[E|Hin']]; [|congruence|].
    + apply (Hold1 u2); [cbn; auto | apply in_or_app; now left].
    + apply in_app_or in Hin' as [Hin'|[E|[]]]; [|congruence].
      apply (Hold1 u2); [cbn; auto | apply in_or_app; now right].
  - intros x Hx. apply in_app_or in Hx as [Hx|[<-|[<-|Hx]]].
    + apply in_or_app. left. apply Hold, in_or_app. now left.
    + apply in_or_app. right. cbn. auto.
    + apply in_or_app. right. cbn. auto.
    + apply in_app_or in Hx as [Hx|[<-|[]]].
      * apply in_or_app. left. apply Hold, in_or_app. now right.
      * apply in_or_app. right. cbn. auto.
Qed.

Lemma NoDup_map_filter (f : Segment -> bool) (l : list Segment) :
  NoDup (map id l) -> NoDup (map id (filter f l)).
Proof.
  induction l as [|s l IH]; intro Hl; [constructor|].
  cbn [map] in Hl. apply NoDup_cons_iff in Hl as [Hs Hl].
  cbn [filter]. destruct (f s); [|now apply IH].
  cbn [map]. constructor; [|now apply IH].
  intro Hin. apply Hs. apply in_map_iff in Hin as (s' & E & Hs').
  apply filter_In in Hs' as [Hs' _]. rewrite <- E. now apply in_map.
Qed.

Lemma step_idsInvariant a e used :
  idsInvariant used (viewport a) ->
  NoDup (used ++ eventUuids e) ->
  idsInvariant (used ++ eventUuids e) (viewport (step a e)).
Proof.
  intros Hinv Hfresh ws Hws.
  assert (Hsegs := Hinv (segments (viewport a)) (or_introl eq_refl)).
  destruct (eventUuids e) as [|u us] eqn:Hu.
  - rewrite app_nil_r.
    apply (wallSets_step_other a e ws Hu) in Hws as [Hws|(i & ->)];
      [now apply Hinv|].
    destruct Hsegs as [Hnodup Hincl]. split; [now apply NoDup_map_filter|].
    intros x Hx. apply Hincl. apply in_map_iff in Hx as (s & <- & Hs).
    apply filter_In in Hs as [Hs _]. now apply in_map.
  - destruct e; try discriminate Hu. injection Hu as <- <-. cbn [step] in Hws.
    destruct Hsegs as [Hnodup Hincl].
    apply wallSets_handleClick in Hws
      as [Hws|[(b & bestSeg & hp & _ & Hbest & ->)|(b & p & _ & _ & ->)]].
    + destruct (Hinv ws Hws) as [Hn Hi]. split; [exact Hn|].
      intros x Hx. apply in_or_app. left. now apply Hi.
    + now apply splitAndInsert_ids.
    + rewrite map_app. cbn [map id]. split.
      * apply (NoDup_Add (Add_app u1 (map id (segments (viewport a))) [])).
        rewrite app_nil_r. split; [exact Hnodup|].
        intro Hin. apply Hincl in Hin.
        destruct (in_split _ _ Hin) as (l1 & l2 & Eused).
        rewrite Eused, <- app_assoc in Hfresh. cbn [app] in Hfresh.
        apply NoDup_remove_2 in Hfresh. apply Hfresh.
        apply in_or_app. right. apply in_or_app. right. now left.
      * intros x Hx. apply in_app_or in Hx as [Hx|[<-|[]]].
        -- apply in_or_app. left. now apply Hincl.
        -- apply in_or_app. right. now left.
Qed.

Lemma run_idsInvariant events : forall a used,
  idsInvariant used (viewport a) ->
  NoDup (used ++ flat_map eventUuids events) ->
  idsInvariant (used ++ flat_map eventUuids events) (viewport (run events a)).
Proof.
  induction events as [|e events IH]; intros a used Hinv Hfresh.
  - cbn. now rewrite app_nil_r.
  - cbn [run fold_left flat_map] in *. rewrite app_assoc in *.
    apply IH; [|exact Hfresh].
    apply step_idsInvariant; [exact Hinv|].
    eapply NoDup_app_remove_r. exact Hfresh.
Qed.

(** X18: when the uuids drawn over a session are pairwise distinct, every
    reachable wall set, and every wall set on the undo and redo stacks, has
    pairwise distinct wall ids, each one a uuid drawn by some click. *)
Theorem wall_ids_are_unique (events : list Event) :
  NoDup (flat_map eventUuids events) ->
  idsInvariant (flat_map eventUuids events) (viewport (run events initApp)) /\
  NoDup (map id (segments (viewport (run events initApp)))).
Proof.
  intro Hfresh.
  assert (H : idsInvariant ([] ++ flat_map eventUuids events)
                (viewport (run events initApp))).
  { apply run_idsInvariant; [|exact Hfresh].
    intros ws [<-|[]]. split; [constructor | intros x []]. }
  split; [exact H|]. apply (H _ (or_introl eq_refl)).
Qed.

Lemma wall_ids_are_unique_witness :
  idsInvariant (flat_map eventUuids nearCorner) (viewport (run nearCorner initApp)) /\
  NoDup (map id (segments (viewport (run nearCorner initApp)))).
Proof.
  apply wall_ids_are_unique.
  repeat constructor; cbn; intuition discriminate.
Defined.

(** ** Pointer move and click *)

(** X19: a pointer move never changes the viewport (wall set, undo and redo
    stacks, selection, switches), the Drawing flag or the anchor; it keeps
    the two block flags in agreement; and it changes nothing at all outside
    draw mode, when idle, or when the pointer misses the plane. *)
Theorem handlePointerMove_frame (raw : option Point3) (a : App) :
  viewport (handlePointerMove raw a) = viewport a /\
  isDrawing (plane (handlePointerMove raw a)) = isDrawing (plane a) /\
  startPoint (plane (handlePointerMove raw a)) = startPoint (plane a) /\
  (flagsCoherent (plane a) -> flagsCoherent (plane (handlePointerMove raw a))) /\
  (isDrawingMode (viewport a) = false \/ isDrawing (plane a) = false \/ raw = None ->
   handlePointerMove raw a = a).
Proof.
  destruct (handlePointerMove_cases raw a)
    as [E|[(b & p & angle & blocked & Hm & Hd & Hb & Hp & E)|(p & Hm & Hd & Hb & E)]].
  - rewrite E. auto.
  - rewrite E. cbn. repeat split; auto.
    intros [H|[H|H]]; try congruence. subst raw. discriminate Hp.
  - split; [now rewrite E|]. split; [now rewrite E|]. split; [now rewrite E|].
    split; [now rewrite E|].
    intros [H|[H|H]]; try congruence. subst raw.
    unfold handlePointerMove. cbv zeta. rewrite Hm, Hd. reflexivity.
Qed.

(** X20: what a click does right after a pointer move to the same place, in
    the Drawing state.  If the preview is not blocked, the click appends the
    wall from the anchor to the pointer and commits.  If the preview is
    blocked by the angle alone, the click changes nothing.  If the candidate
    crosses a wall, the preview is blocked and yet the click commits the
    split of a crossed wall. *)
Theorem click_after_move a raw u1 u2 u3 b p :
  isDrawingMode (viewport a) = true ->
  isDrawing (plane a) = true ->
  startPoint (plane a) = Some b ->
  applySnap (snapGridEnabled (viewport a)) (snapPointsOf (segments (viewport a))) raw
  = Some p ->
  (previewBlocked (plane (handlePointerMove raw a)) = false ->
   handleClick raw u1 u2 u3 (handlePointerMove raw a)
   = mkApp (pushHistory (segments (viewport a) ++ [mkSegment u1 b p]) (viewport a))
       resetDrawing) /\
  (previewBlocked (plane (handlePointerMove raw a)) = true ->
   wouldIntersectExistingWalls b p (segments (viewport a)) = false ->
   handleClick raw u1 u2 u3 (handlePointerMove raw a) = handlePointerMove raw a) /\
  (wouldIntersectExistingWalls b p (segments (viewport a)) = true ->
   previewBlocked (plane (handlePointerMove raw a)) = true /\
   exists bestSeg hp ht,
     In bestSeg (segments (viewport a)) /\
     segmentsIntersectionPoint2DWithT b p (start bestSeg) (end_ bestSeg)
     = mkIntersection true (Some hp) (Some ht) /\
     handleClick raw u1 u2 u3 (handlePointerMove raw a)
     = mkApp
         (pushHistory
            (splitAndInsert (segments (viewport a)) bestSeg (snapToGrid hp) b u1 u2 u3)
            (viewport a))
         resetDrawing).
Proof.
  intros Hmode Hdraw Hstart Hsnap.
  rewrite (handlePointerMove_drawing a raw b p Hmode Hdraw Hstart Hsnap).
  cbn [plane previewBlocked].
  set (tooSharp := fst (angleCheck (segments (viewport a)) b p)).
  set (moved := mkApp _ _).
  split; [|split].
  - intro Hfree. apply orb_false_iff in Hfree as [Hsharp Hmiss].
    apply (handleClick_append moved raw u1 u2 u3 b p); trivial.
    cbn. now rewrite Hsharp, Hmiss.
  - intros Hblocked Hmiss.
    subst moved. unfold handleClick. cbv zeta.
    cbn [viewport plane isDrawing startPoint canPlaceWall].
    rewrite Hmode, Hsnap. cbn [negb].
    rewrite (hitLoop_none b p _ Hmiss), Hblocked. reflexivity.
  - intro Hhit. split; [rewrite Hhit; apply orb_true_r|].
    destruct (hitLoop_some b p _ Hhit) as (bestSeg & hp & ht & Hin & Hres & Hloop).
    exists bestSeg, hp, ht. split; [exact Hin|]. split; [exact Hres|].
    exact (handleClick_split moved raw u1 u2 u3 b p bestSeg hp ht
             Hmode eq_refl eq_refl Hsnap Hloop).
Qed.

Lemma click_after_move_witness :
  (previewBlocked (plane (handlePointerMove (Some (pt 2 2)) belowWallAnchored)) = false ->
   handleClick (Some (pt 2 2)) "d1" "d2" "d3"
     (handlePointerMove (Some (pt 2 2)) belowWallAnchored)
   = mkApp
       (pushHistory
          (segments (viewport belowWallAnchored)
           ++ [mkSegment "d1" (snapToGrid (pt 2 (-2))) (snapToGrid (pt 2 2))])
          (viewport belowWallAnchored))
       resetDrawing) /\
  (previewBlocked (plane (handlePointerMove (Some (pt 2 2)) belowWallAnchored)) = true ->
   wouldIntersectExistingWalls (snapToGrid (pt 2 (-2))) (snapToGrid (pt 2 2))
     (segments (viewport belowWallAnchored)) = false ->
   handleClick (Some (pt 2 2)) "d1" "d2" "d3"
     (handlePointerMove (Some (pt 2 2)) belowWallAnchored)
   = handlePointerMove (Some (pt 2 2)) belowWallAnchored) /\
  (wouldIntersectExistingWalls (snapToGrid (pt 2 (-2))) (snapToGrid (pt 2 2))
     (segments (viewport belowWallAnchored)) = true ->
   previewBlocked (plane (handlePointerMove (Some (pt 2 2)) belowWallAnchored)) = true /\
   exists bestSeg hp ht,
     In bestSeg (segments (viewport belowWallAnchored)) /\
     segmentsIntersectionPoint2DWithT (snapToGrid (pt 2 (-2))) (snapToGrid (pt 2 2))
       (start bestSeg) (end_ bestSeg)
     = mkIntersection true (Some hp) (Some ht) /\
     handleClick (Some (pt 2 2)) "d1" "d2" "d3"
       (handlePointerMove (Some (pt 2 2)) belowWallAnchored)
     = mkApp
         (pushHistory
            (splitAndInsert (segments (viewport belowWallAnchored)) bestSeg
               (snapToGrid hp) (snapToGrid (pt 2 (-2))) "d1" "d2" "d3")
            (viewport belowWallAnchored))
         resetDrawing).
Proof.
  apply (click_after_move belowWallAnchored (Some (pt 2 2)) "d1" "d2" "d3"
           (snapToGrid (pt 2 (-2))) (snapToGrid (pt 2 2)));
    vm_compute; reflexivity.
Defined.

Lemma flat_map_length_ge (f : Segment -> list Segment) (l : list Segment) :
  (forall s, (1 <= List.length (f s))%nat) ->
  (List.length l <= List.length (flat_map f l))%nat.
Proof.
  intro Hf. induction l as [|s l IH]; [constructor|].
  cbn [flat_map List.length]. rewrite length_app. specialize (Hf s). lia.
Qed.

(** X21: a plane click either leaves wall set, undo stack and redo stack as
    they are, or commits: then the previous wall set is the one entry pushed
    on the undo stack, the redo stack is empty, the session is idle, the wall
    set has grown, and one [undo ()] gives back the previous wall set and
    undo stack, with the committed wall set as the one redo entry. *)
Theorem click_commit_is_one_undo_step raw u1 u2 u3 a :
  (segments (viewport (handleClick raw u1 u2 u3 a)) = segments (viewport a) /\
   history (viewport (handleClick raw u1 u2 u3 a)) = history (viewport a) /\
   redoStack (viewport (handleClick raw u1 u2 u3 a)) = redoStack (viewport a)) \/
  (history (viewport (handleClick raw u1 u2 u3 a))
   = history (viewport a) ++ [segments (viewport a)] /\
   redoStack (viewport (handleClick raw u1 u2 u3 a)) = [] /\
   plane (handleClick raw u1 u2 u3 a) = resetDrawing /\
   (List.length (segments (viewport a))
    < List.length (segments (viewport (handleClick raw u1 u2 u3 a))))%nat /\
   segments (handleUndo (viewport (handleClick raw u1 u2 u3 a))) = segments (viewport a) /\
   history (handleUndo (viewport (handleClick raw u1 u2 u3 a))) = history (viewport a) /\
   redoStack (handleUndo (viewport (handleClick raw u1 u2 u3 a)))
   = [segments (viewport (handleClick raw u1 u2 u3 a))]).
Proof.
  destruct (handleClick_cases raw u1 u2 u3 a)
    as [E|[(p & _ & _ & _ & E)|[(b & p & s & hp & ht & _ & _ & _ & _ & _ & _ & E)
                               |(b & p & _ & _ & _ & _ & _ & _ & E)]]];
    rewrite E; [now left | now left | right | right].
  - cbn [viewport plane].
    erewrite handleUndo_snoc by reflexivity.
    cbn [pushHistory segments history redoStack]. repeat split.
    unfold splitAndInsert. cbv zeta. rewrite length_app. cbn [List.length].
    pose proof (flat_map_length_ge
                  (fun s0 => if String.eqb (id s0) (id s)
                             then [mkSegment u2 (start s) (snapToGrid hp);
                                   mkSegment u3 (snapToGrid hp) (end_ s)]
                             else [s0])
                  (segments (viewport a))) as Hlen.
    assert (Hone : forall s0,
               (1 <= List.length
                       (if String.eqb (id s0) (id s)
                        then [mkSegment u2 (start s) (snapToGrid hp);
                              mkSegment u3 (snapToGrid hp) (end_ s)]
                        else [s0]))%nat)
      by (intro s0; destruct (String.eqb _ _); cbn; lia).
    specialize (Hlen Hone). lia.
  - cbn [viewport plane].
    erewrite handleUndo_snoc by reflexivity.
    cbn [pushHistory segments history redoStack]. repeat split.
    rewrite length_app. cbn. lia.
Qed.

(** ** Selection by a wall click *)

(** X22: a wall click changes nothing but the selection, and nothing at all
    in draw mode.  Outside draw mode it selects the wall, unless that wall was
    the selection, which it clears; so a second click on the same wall
    clears the selection whenever the wall was not selected before the
    first one, whatever else was selected then. *)
Theorem wallOnClick_toggles (segment : Segment) (v : Viewport) :
  segments (wallOnClick segment v) = segments v /\
  history (wallOnClick segment v) = history v /\
  redoStack (wallOnClick segment v) = redoStack v /\
  (isDrawingMode v = true -> wallOnClick segment v = v) /\
  (isDrawingMode v = false ->
   (selectedId v = Some (id segment) ->
    selectedId (wallOnClick segment v) = None /\
    selectedId (wallOnClick segment (wallOnClick segment v)) = Some (id segment)) /\
   (selectedId v <> Some (id segment) ->
    selectedId (wallOnClick segment v) = Some (id segment) /\
    selectedId (wallOnClick segment (wallOnClick segment v)) = None)).
Proof.
  unfold wallOnClick.
  destruct (isDrawingMode v) eqn:Hmode.
  - repeat split; intros; congruence.
  - cbn [setSelectedId segments history redoStack isDrawingMode selectedId].
    rewrite Hmode.
    split; [reflexivity|]. split; [reflexivity|]. split; [reflexivity|].
    split; [discriminate|]. intros _. split.
    + intros ->. rewrite String.eqb_refl. cbn. split; reflexivity.
    + intro Hother.
      assert (E : match selectedId v with
                  | Some i => String.eqb i (id segment)
                  | None => false
                  end = false).
      { destruct (selectedId v) as [i|]; [|reflexivity].
        apply String.eqb_neq. congruence. }
      rewrite E. cbn. rewrite String.eqb_refl. split; reflexivity.
Qed.

(** ** Wall box *)

(** X23: the box drawn for a wall always has a positive length, strictly
    shorter than the wall's length, also for a wall of length zero; and it
    is centred on the midpoint of the wall. *)
Theorem displayLen_positive (segment : Segment) :
  (0 < displayLen segment < wallLength segment)%R /\
  px (wallMid segment) - px (start segment) == px (end_ segment) - px (wallMid segment) /\
  pz (wallMid segment) - pz (start segment) == pz (end_ segment) - pz (wallMid segment).
Proof.
  split; [|split; unfold wallMid; cbn [px pz]; field].
  assert (Hlen : (0 < wallLength segment)%R).
  { unfold wallLength. cbv zeta.
    set (l := sqrt _).
    destruct (Req_dec_T l 0) as [_|Hl].
    - unfold Q2R. cbn. Lra.lra.
    - pose proof (sqrt_pos (Q2R ((px (end_ segment) - px (start segment))
                                 * (px (end_ segment) - px (start segment))
                                 + (pz (end_ segment) - pz (start segment))
                                   * (pz (end_ segment) - pz (start segment))))).
      fold l in H. Lra.lra. }
  unfold displayLen. cbv zeta.
  assert (Em : Q2R (WALL_WIDTH * (1 # 2)) = (1 / 10)%R)
    by (unfold Q2R, WALL_WIDTH; cbn; Lra.lra).
  assert (Eh : Q2R (1 # 2) = (1 / 2)%R) by (unfold Q2R; cbn; Lra.lra).
  rewrite Em, Eh.
  destruct (Rlt_dec (2 * (1 / 10)) (wallLength segment)); Lra.lra.
Qed.

(** ** Vertex markers *)

Lemma sameKey_iff (p q : Point3) :
  sameKey p q = true <-> px p == px q /\ pz p == pz q.
Proof. unfold sameKey. now rewrite andb_true_iff, !Qeq_bool_iff. Qed.

Lemma sameKey_refl (p : Point3) : sameKey p p = true.
Proof. apply sameKey_iff. split; reflexivity. Qed.

Lemma sameKey_sym (p q : Point3) : sameKey p q = sameKey q p.
Proof.
  destruct (sameKey p q) eqn:E1, (sameKey q p) eqn:E2; trivial.
  - apply sameKey_iff in E1 as [Hx Hz].
    assert (H : sameKey q p = true) by (apply sameKey_iff; split; now symmetry).
    congruence.
  - apply sameKey_iff in E2 as [Hx Hz].
    assert (H : sameKey p q = true) by (apply sameKey_iff; split; now symmetry).
    congruence.
Qed.

Lemma sameKey_trans (p q r : Point3) :
  sameKey p q = true -> sameKey q r = true -> sameKey p r = true.
Proof.
  rewrite !sameKey_iff. intros [Hx Hz] [Hx' Hz'].
  split; etransitivity; eassumption.
Qed.

Lemma mapSet_In m p q : In q (mapSet m p) -> q = p \/ In q m.
Proof.
  induction m as [|q0 m IH]; cbn [mapSet].
  - intros [<-|[]]. now left.
  - destruct (sameKey q0 p).
    + intros [<-|Hin]; [now left | right; now right].
    + intros [<-|Hin]; [right; now left|].
      destruct (IH Hin) as [->|Hq]; [now left | right; now right].
Qed.

Lemma mapSet_new m p : In p (mapSet m p).
Proof.
  induction m as [|q0 m IH]; cbn [mapSet]; [now left|].
  destruct (sameKey q0 p); [now left | now right].
Qed.

Lemma mapSet_keeps m p q : In q m -> sameKey q p = false -> In q (mapSet m p).
Proof.
  induction m as [|q0 m IH]; cbn [mapSet]; [intros []|].
  intros [<-|Hin] Hkey.
  - rewrite Hkey. now left.
  - destruct (sameKey q0 p); right; auto.
Qed.

Lemma mapSet_represents m p x :
  (exists q, In q m /\ sameKey q x = true) ->
  exists q, In q (mapSet m p) /\ sameKey q x = true.
Proof.
  intros (q & Hq & Hkey).
  destruct (sameKey q p) eqn:Hqp.
  - exists p. split; [apply mapSet_new|].
    apply sameKey_trans with q; [now rewrite sameKey_sym | exact Hkey].
  - exists q. split; [now apply mapSet_keeps | exact Hkey].
Qed.

Lemma mapSet_keysDistinct m p : keysDistinct m -> keysDistinct (mapSet m p).
Proof.
  induction m as [|q0 m IH]; cbn [mapSet keysDistinct].
  - intros _. split; [intros x [] | exact I].
  - intros [Hq0 Hm]. destruct (sameKey q0 p) eqn:Hkey; cbn [keysDistinct].
    + split; [|exact Hm]. intros x Hx.
      destruct (sameKey p x) eqn:Hpx; [|reflexivity].
      rewrite <- (Hq0 x Hx). symmetry. now apply sameKey_trans with p.
    + split; [|now apply IH]. intros x Hx.
      apply mapSet_In in Hx as [->|Hx]; [exact Hkey | now apply Hq0].
Qed.

Lemma mapSet_length m p :
  (List.length (mapSet m p) <= S (List.length m))%nat.
Proof.
  induction m as [|q0 m IH]; cbn [mapSet List.length]; [lia|].
  destruct (sameKey q0 p); cbn [List.length]; lia.
Qed.

Lemma uniqueVertices_snoc l p :
  uniqueVertices (l ++ [p]) = mapSet (uniqueVertices l) p.
Proof. unfold uniqueVertices. now rewrite fold_left_app. Qed.

(** X24: the vertex markers.  [uniqueVertices] keeps one point per key (pair
    of plane coordinates): no two of its points have the same key, each is
    one of the snap points, every snap point has its key among them, and the
    point kept for a key is the last snap point with that key. *)
Theorem uniqueVertices_one_per_key (snapPoints : list Point3) :
  keysDistinct (uniqueVertices snapPoints) /\
  incl (uniqueVertices snapPoints) snapPoints /\
  (forall p, In p snapPoints ->
             exists q, In q (uniqueVertices snapPoints) /\ sameKey q p = true) /\
  (List.length (uniqueVertices snapPoints) <= List.length snapPoints)%nat /\
  (forall before p after,
     snapPoints = before ++ p :: after ->
     (forall x, In x after -> sameKey p x = false) ->
     In p (uniqueVertices snapPoints)).
Proof.
  induction snapPoints as [|x l IH] using rev_ind.
  - cbn. repeat split; try easy.
    intros before p after E. now destruct before.
  - destruct IH as (Hkeys & Hincl & Hrep & Hlen & Hlast).
    rewrite uniqueVertices_snoc. split; [|split; [|split; [|split]]].
    + now apply mapSet_keysDistinct.
    + intros q Hq. apply mapSet_In in Hq as [->|Hq].
      * apply in_or_app. right. now left.
      * apply in_or_app. left. now apply Hincl.
    + intros p Hp. apply in_app_or in Hp as [Hp|[<-|[]]].
      * apply mapSet_represents. now apply Hrep.
      * exists x. split; [apply mapSet_new | apply sameKey_refl].
    + rewrite length_app. cbn [List.length].
      pose proof (mapSet_length (uniqueVertices l) x). lia.
    + intros before p after E Hafter.
      destruct (snoc_cases after) as [->|(after' & y & ->)].
      * apply app_inj_tail in E as [_ <-]. apply mapSet_new.
      * rewrite app_comm_cons, app_assoc in E.
        apply app_inj_tail in E as [-> <-].
        apply mapSet_keeps.
        -- apply (Hlast before p after' eq_refl).
           intros z Hz. apply Hafter, in_or_app. now left.
        -- apply Hafter, in_or_app. right. now left.
Qed.

(** ** More on the intersection test *)

Lemma Qltb_of_iff (x y x' y' : Q) : (x < y <-> x' < y') -> Qltb x y = Qltb x' y'.
Proof.
  intro H. destruct (Qltb x y) eqn:E1, (Qltb x' y') eqn:E2; trivial.
  - apply Qltb_lt, H, Qltb_lt in E1. congruence.
  - apply Qltb_lt, H, Qltb_lt in E2. congruence.
Qed.

(** X25: two segments with parallel directions never report a hit, also
    when they lie on the same line and overlap. *)
Theorem parallel_is_no_hit (p1 p2 p3 p4 : Point3) :
  (px p1 - px p2) * (pz p3 - pz p4) == (pz p1 - pz p2) * (px p3 - px p4) ->
  hit (segmentsIntersectionPoint2DWithT p1 p2 p3 p4) = false.
Proof.
  intro Hpar. rewrite hit_formula.
  rewrite (Qltb_comp (Qabs _) 0 EPS EPS); [reflexivity | | reflexivity].
  rewrite Hpar.
  setoid_replace ((pz p1 - pz p2) * (px p3 - px p4) - (pz p1 - pz p2) * (px p3 - px p4))
    with 0 by ring.
  reflexivity.
Qed.

Lemma parallel_is_no_hit_witness :
  hit (segmentsIntersectionPoint2DWithT (pt 4 0) (pt 2 0) (pt 0 0) (pt 4 0)) = false.
Proof.
  apply parallel_is_no_hit. reflexivity.
Defined.

(** X26: the hit flag does not depend on the direction in which the
    candidate wall is drawn: swapping its two ends gives the same flag. *)
Theorem hit_direction_free (p1 p2 p3 p4 : Point3) :
  hit (segmentsIntersectionPoint2DWithT p2 p1 p3 p4)
  = hit (segmentsIntersectionPoint2DWithT p1 p2 p3 p4).
Proof.
  rewrite !hit_formula.
  set (denom := (px p1 - px p2) * (pz p3 - pz p4) - (pz p1 - pz p2) * (px p3 - px p4)).
  set (denom' := (px p2 - px p1) * (pz p3 - pz p4) - (pz p2 - pz p1) * (px p3 - px p4)).
  assert (Eden : denom' == - denom) by (unfold denom, denom'; ring).
  rewrite (Qltb_comp (Qabs denom') (Qabs denom) EPS EPS)
    by (try reflexivity; rewrite Eden; apply Qabs_opp).
  destruct (Qltb (Qabs denom) EPS) eqn:Hden; [reflexivity|].
  apply denom_nonzero in Hden.
  assert (Hden' : ~ denom' == 0) by (rewrite Eden; intro H; apply Hden; Lqa.lra).
  cbn [negb andb].
  set (tt := ((px p1 - px p3) * (pz p3 - pz p4) - (pz p1 - pz p3) * (px p3 - px p4)) / denom).
  set (u := ((px p1 - px p3) * (pz p1 - pz p2) - (pz p1 - pz p3) * (px p1 - px p2)) / denom).
  set (tt' := ((px p2 - px p3) * (pz p3 - pz p4) - (pz p2 - pz p3) * (px p3 - px p4)) / denom').
  set (u' := ((px p2 - px p3) * (pz p2 - pz p1) - (pz p2 - pz p3) * (px p2 - px p1)) / denom').
  assert (Et : tt' == 1 - tt) by (unfold tt', tt, denom, denom' in *; field; auto).
  assert (Eu : u' == u) by (unfold u', u, denom, denom' in *; field; auto).
  rewrite (Qltb_of_iff EPS tt' tt (1 - EPS)) by (rewrite Et; split; intro; Lqa.lra).
  rewrite (Qltb_of_iff tt' (1 - EPS) EPS tt) by (rewrite Et; split; intro; Lqa.lra).
  rewrite (Qltb_comp EPS EPS u' u), (Qltb_comp u' u (1 - EPS) (1 - EPS))
    by (trivial; reflexivity).
  destruct (Qltb EPS tt), (Qltb tt (1 - EPS)); reflexivity.
Qed.

(** ** Anchoring on a vertex *)

(** X27: a point taken from the snap points of the wall set (as vertex snap
    returns it) always has a touching wall: [lastTouching] finds a wall of
    the wall set with an end at that point, so the angle check applies to
    every wall started on an existing vertex. *)
Theorem vertex_anchor_has_touching_wall (segments' : list Segment) (c : Point3) :
  In c (snapPointsOf segments') ->
  exists w,
    lastTouching segments' c = Some w /\ In w segments' /\ touches w c = true.
Proof.
  intro Hc. unfold snapPointsOf in Hc.
  apply in_flat_map in Hc as (s & Hs & Hc).
  assert (Hts : touches s c = true).
  { unfold touches, startsAt, endsAt.
    destruct Hc as [<-|[<-|[]]]; rewrite !Qeq_bool_refl; cbn; auto using orb_true_r. }
  pose proof (lastTouching_spec segments' c) as Hspec.
  destruct (lastTouching segments' c) as [w|].
  - destruct Hspec as (before & after & -> & Hw & _).
    exists w. repeat split; trivial. apply in_or_app. right. now left.
  - rewrite (Hspec s Hs) in Hts. discriminate.
Qed.

Lemma vertex_anchor_has_touching_wall_witness :
  exists w,
    lastTouching threeWalls (pt 4 0) = Some w /\ In w threeWalls /\
    touches w (pt 4 0) = true.
Proof.
  apply vertex_anchor_has_touching_wall. cbn. auto.
Defined.
